(** * The loading cache of [utils/loading_cache.hh], in two revisions

    The repository carries two revisions of the asynchronous loading cache:

    - [Anchored]: [src/utils/loading_cache.hh].  The timestamped values live
      in the shared-values registry; an [lru_entry] anchors a value in the
      LRU list.  The cache always reloads in the background and rejects a
      value that is bigger than the whole cache ([entry_is_too_big]).
    - [Indexed]: [src/unnamed/part_001].  The timestamped values are allocated
      by the cache and threaded through an intrusive hash index ([_set]) and
      the LRU list; the template flag [ReloadEnabled] selects the mode, and
      [get_ptr], [erase], [remove_if], [find], [at] are public.

    The code is single threaded and cooperative: every function body runs to
    its next suspension point without interleaving.  A function that awaits
    is therefore embedded as its synchronous prefix and its continuation,
    each a pure function on the cache state.  Every reading of
    [loading_cache_clock_type::now()] is an explicit argument: the low
    resolution clock is advanced from outside the running code. *)

From Stdlib Require Import ZArith List Bool Lia.
From Stdlib Require String.
Import ListNotations.
Local Open Scope Z_scope.

(** ** [size_t] arithmetic and loader futures *)

(** [size_t] is 64 bits wide: [+=] and [-=] on [_current_size] wrap. *)
Definition size_t_modulus : Z := 2 ^ 64.

Definition wrap (x : Z) : Z := x mod size_t_modulus.

Definition size_add (a b : Z) : Z := wrap (a + b).

Definition size_sub (a b : Z) : Z := wrap (a - b).

(** Time points and durations are signed 64-bit counts of milliseconds.
    A sum that leaves that range is computed as the machine computes it,
    wrapping around in two's complement (the C++ standard leaves such a sum
    undefined). *)
Definition int64_min : Z := - 2 ^ 63.

Definition int64_max : Z := 2 ^ 63 - 1.

Definition int64_wrap (x : Z) : Z := (x + 2 ^ 63) mod 2 ^ 64 - 2 ^ 63.

(** [time_point + duration]. *)
Definition time_add (t d : Z) : Z := int64_wrap (t + d).

(** What a loader future holds once it resolves ([f.get0()] returns the
    value or rethrows the loader's exception). *)
Inductive load_result (Tp : Type) : Type :=
| loaded (val : Tp)
| load_failed.
Arguments loaded {Tp} val.
Arguments load_failed {Tp}.

(** The state of a [future<>] handed back by a background task. *)
Inductive future_state : Type :=
| resolved
| exceptional.

(** ** Intrusive list operations shared by both revisions

    [sz] reads the cached size of a node; disposing a node runs its
    destructor, which subtracts that size from the cache total. *)
Section IntrusiveList.
Context {A : Type}.
Variable sz : A -> Z.

(** The plain sum of the cached sizes of the nodes of a list. *)
Fixpoint sum_sizes (l : list A) : Z :=
  match l with
  | [] => 0
  | e :: l' => sz e + sum_sizes l'
  end.

(** [find] followed by [unlink] of the node found: the first node that
    satisfies [p], and the list without it. *)
Fixpoint extract (p : A -> bool) (l : list A) : option (A * list A) :=
  match l with
  | [] => None
  | e :: l' =>
      if p e then Some (e, l')
      else match extract p l' with
           | Some (x, r) => Some (x, e :: r)
           | None => None
           end
  end.

(** Assignment through an iterator or a reference: the first node that
    satisfies [p] is replaced in place. *)
Fixpoint update_first (p : A -> bool) (f : A -> A) (l : list A) : list A :=
  match l with
  | [] => []
  | e :: l' => if p e then f e :: l' else e :: update_first p f l'
  end.

(** [bi::list::remove_and_dispose_if(pred, disposer)] with a disposer that
    destroys the node: the walk goes front to back, and the total [cs] is
    decremented at each disposal. *)
Fixpoint remove_and_dispose_if (pred : A -> bool) (l : list A) (cs : Z)
  : list A * Z :=
  match l with
  | [] => ([], cs)
  | e :: l' =>
      if pred e then remove_and_dispose_if pred l' (size_sub cs (sz e))
      else let (r, cs') := remove_and_dispose_if pred l' cs in (e :: r, cs')
  end.

(** The loop of [shrink()], on the list read from its back ([rbegin()]
    first): while the total exceeds [max] the last node is destroyed.
    Dereferencing [rbegin()] of an empty list is undefined: [None]. *)
Fixpoint shrink_from_back (max : Z) (rl : list A) (cs : Z)
  : option (list A * Z) :=
  match rl with
  | [] => if max <? cs then None else Some ([], cs)
  | e :: rl' =>
      if max <? cs then shrink_from_back max rl' (size_sub cs (sz e))
      else Some (rl, cs)
  end.

(** [erase_and_dispose(begin, end, disposer)] and [clear_and_dispose]:
    every node is destroyed. *)
Fixpoint dispose_all (l : list A) (cs : Z) : Z :=
  match l with
  | [] => cs
  | e :: l' => dispose_all l' (size_sub cs (sz e))
  end.
End IntrusiveList.

(** What a constructor call ends in. *)
Inductive construction (C : Type) : Type :=
| constructed (c : C)
| configuration_exception.
Arguments constructed {C} c.
Arguments configuration_exception {C}.

(** ** [src/utils/loading_cache.hh]: values anchored by LRU entries *)
Module Anchored.
Section Cache.
(** Template parameters [Key], [Tp], [EqualPred], [EntrySize]. *)
Variables Key Tp : Type.
Variable EqualPred : Key -> Key -> bool.
Variable EntrySize : Tp -> Z.

(** [timestamped_val].  The back reference [_lru_entry_ptr] is not a field
    here: a value is anchored ([ready()]) exactly while an [lru_entry] of
    the LRU list holds it. *)
Record timestamped_val : Type := {
  _value : Tp;
  _loaded : Z;
  _last_read : Z;
  _size : Z
}.

(** [timestamped_val(value_type val)], with the clock reading [now]. *)
Definition timestamped_val_ctor (val : Tp) (now : Z) : timestamped_val :=
  {| _value := val; _loaded := now; _last_read := now;
     _size := EntrySize val |}.

(** The fields [operator=] writes in the value itself. *)
Definition assigned (new_val : Tp) (now : Z) (v : timestamped_val)
  : timestamped_val :=
  {| _value := new_val; _loaded := now; _last_read := _last_read v;
     _size := EntrySize new_val |}.

(** [timestamped_val::touch()]: [_last_read = now()]. *)
Definition read_at (now : Z) (v : timestamped_val) : timestamped_val :=
  {| _value := _value v; _loaded := _loaded v; _last_read := now;
     _size := _size v |}.

(** [lru_entry]: the shared pointer [_ts_val_ptr] with the key of its
    registry slot ([loading_values_type::to_key]). *)
Record lru_entry : Type := {
  key : Key;
  timestamped_value : timestamped_val
}.

Definition entry_size (e : lru_entry) : Z := _size (timestamped_value e).

Definition on_value (f : timestamped_val -> timestamped_val) (e : lru_entry)
  : lru_entry :=
  {| key := key e; timestamped_value := f (timestamped_value e) |}.

(** The members of [loading_cache] that hold state.  [_lru_list] has the
    MRU entry first.  [_timer_period] is unset until the constructor
    arms the timer. *)
Record loading_cache : Type := {
  _lru_list : list lru_entry;
  _current_size : Z;
  _max_size : Z;
  _expiry : Z;
  _refresh : Z;
  _timer_period : option Z
}.

Definition with_entries (c : loading_cache) (l : list lru_entry) (cs : Z)
  : loading_cache :=
  {| _lru_list := l; _current_size := cs; _max_size := _max_size c;
     _expiry := _expiry c; _refresh := _refresh c;
     _timer_period := _timer_period c |}.

Definition caching_enabled (c : loading_cache) : bool :=
  negb (_expiry c =? 0).

(** The constructor. *)
Definition loading_cache_ctor (max_size expiry refresh : Z)
  : construction loading_cache :=
  let c := {| _lru_list := []; _current_size := 0; _max_size := max_size;
              _expiry := expiry; _refresh := refresh;
              _timer_period := None |} in
  if negb (caching_enabled c) then constructed c
  else if (refresh =? 0) || (max_size =? 0) then configuration_exception
  else constructed
         {| _lru_list := []; _current_size := 0; _max_size := max_size;
            _expiry := expiry; _refresh := refresh;
            _timer_period := Some (Z.min expiry refresh) |}.

(** Modelled from the spec: the shared-values registry
    ([utils/loading_shared_values.hh]) is not among the sources.  It holds
    one slot per key, compared with [EqualPred]; [get_or_load(k, loader)]
    completes with the handle of the slot of [k], and [to_key(handle)] gives
    the key of a slot back.  An [lru_entry] holds the handle of the slot of
    its key, so the slot of [k] is anchored exactly when an entry of the LRU
    list answers to [k]. *)
Definition has_key (k : Key) (e : lru_entry) : bool := EqualPred k (key e).

(** [set_find]: the registry slot of [k], when it is anchored. *)
Definition set_find (c : loading_cache) (k : Key) : option lru_entry :=
  find (has_key k) (_lru_list c).

(** [get], up to its suspension point: either the loader's own future is
    handed to the caller, or the call goes through the shared-values
    registry and resumes in [get_cont]. *)
Inductive get_start : Type :=
| load_directly
| get_or_load.

Definition get (c : loading_cache) (k : Key) : get_start :=
  if negb (caching_enabled c) then load_directly else get_or_load.

Inductive get_outcome : Type :=
| ready_future (val : Tp)
| entry_is_too_big.

(** The continuation of [get].  [ts_val] is what the handle [ts_val_ptr]
    points to when the slot of [k] is not anchored; an anchored slot is
    the one an entry of the LRU list holds.  Installing runs the
    [lru_entry] constructor ([_cache_size += size]) and then [value()],
    which stamps [_last_read] and pushes the entry to the front. *)
Definition get_cont (c : loading_cache) (k : Key) (ts_val : timestamped_val)
           (now : Z) : loading_cache * get_outcome :=
  match extract (has_key k) (_lru_list c) with
  | None =>
      if _max_size c <? _size ts_val then (c, entry_is_too_big)
      else
        (with_entries c
           ({| key := k; timestamped_value := read_at now ts_val |}
              :: _lru_list c)
           (size_add (_current_size c) (_size ts_val)),
         ready_future (_value ts_val))
  | Some (e, rest) =>
      (with_entries c (on_value (read_at now) e :: rest) (_current_size c),
       ready_future (_value (timestamped_value e)))
  end.

(** [reload(lru_entry)], up to its suspension point: the key is read from
    the entry, handed to [_load] and moved into the continuation. *)
Definition reload (e : lru_entry) : Key := key e.

(** [operator=] on the slot of [key]: the value is replaced in place and
    the cache total gives up the old size and takes the new one. *)
Definition reassign (c : loading_cache) (k : Key) (old : lru_entry)
           (new_val : Tp) (now : Z) : loading_cache :=
  with_entries c
    (update_first (has_key k) (on_value (assigned new_val now))
       (_lru_list c))
    (size_add (size_sub (_current_size c) (entry_size old))
       (EntrySize new_val)).

(** The continuation of [reload], run with the captured [key] and the
    resolved loader future. *)
Definition reload_cont (c : loading_cache) (k : Key) (f : load_result Tp)
           (now : Z) : loading_cache * future_state :=
  match set_find c k with
  | None => (c, resolved)
  | Some old =>
      (match f with
       | loaded new_val => reassign c k old new_val now
       | load_failed => c
       end, resolved)
  end.

(** The predicate of [drop_expired]. *)
Definition expired (c : loading_cache) (now : Z) (e : lru_entry) : bool :=
  let since_last_read := now - _last_read (timestamped_value e) in
  let since_loaded := now - _loaded (timestamped_value e) in
  (_expiry c <? since_last_read) || (_expiry c <? since_loaded).

Definition drop_expired (c : loading_cache) (now : Z) : loading_cache :=
  let (l, cs) := remove_and_dispose_if entry_size (expired c now)
                   (_lru_list c) (_current_size c) in
  with_entries c l cs.

Definition shrink (c : loading_cache) : option loading_cache :=
  match shrink_from_back entry_size (_max_size c) (rev (_lru_list c))
          (_current_size c) with
  | Some (rl, cs) => Some (with_entries c (rev rl) cs)
  | None => None
  end.

(** The refresh step of [on_timer]: the entry at position [i] of the list
    is examined when the clock reads [examined_at i]; the keys of the
    entries handed to [reload] are returned in list order.  The deadline
    [loaded() + _refresh] is a 64-bit sum. *)
Fixpoint to_reload (refresh : Z) (examined_at : nat -> Z) (i : nat)
         (l : list lru_entry) : list lru_entry :=
  match l with
  | [] => []
  | e :: l' =>
      if time_add (_loaded (timestamped_value e)) refresh <? examined_at i
      then e :: to_reload refresh examined_at (S i) l'
      else to_reload refresh examined_at (S i) l'
  end.

(** [on_timer]: [drop_expired] reads the clock once ([now]);
    [periodic_rehash] changes no membership; the last component lists the
    keys whose reload was started. *)
Definition on_timer (c : loading_cache) (now : Z) (examined_at : nat -> Z)
  : option (loading_cache * list Key) :=
  match shrink (drop_expired c now) with
  | Some c' =>
      Some (c', map reload
                  (to_reload (_refresh c') examined_at 0 (_lru_list c')))
  | None => None
  end.

(** [~loading_cache]. *)
Definition destructor (c : loading_cache) : loading_cache :=
  with_entries c [] (dispose_all entry_size (_lru_list c) (_current_size c)).

(** The atomic steps of a cache between two suspension points. *)
Inductive step_label : Type :=
| get_resumes (k : Key) (ts_val : timestamped_val) (now : Z)
| timer_fires (now : Z) (examined_at : nat -> Z)
| reload_resumes (k : Key) (f : load_result Tp) (now : Z)
| destroyed.

Definition step (c : loading_cache) (s : step_label)
  : option loading_cache :=
  match s with
  | get_resumes k ts_val now => Some (fst (get_cont c k ts_val now))
  | timer_fires now examined_at =>
      option_map fst (on_timer c now examined_at)
  | reload_resumes k f now => Some (fst (reload_cont c k f now))
  | destroyed => Some (destructor c)
  end.

Fixpoint run (c : loading_cache) (ss : list step_label)
  : option loading_cache :=
  match ss with
  | [] => Some c
  | s :: ss' =>
      match step c s with
      | Some c' => run c' ss'
      | None => None
      end
  end.

(** The sum the cache total accounts for. *)
Definition resident_size (c : loading_cache) : Z :=
  sum_sizes entry_size (_lru_list c).
End Cache.
Arguments _value {Tp} t.
Arguments _loaded {Tp} t.
Arguments _last_read {Tp} t.
Arguments _size {Tp} t.
Arguments Build_timestamped_val {Tp} _value _loaded _last_read _size.
Arguments timestamped_val_ctor {Tp} EntrySize val now.
Arguments assigned {Tp} EntrySize new_val now v.
Arguments read_at {Tp} now v.
Arguments key {Key Tp} l.
Arguments timestamped_value {Key Tp} l.
Arguments Build_lru_entry {Key Tp} key timestamped_value.
Arguments entry_size {Key Tp} e.
Arguments on_value {Key Tp} f e.
Arguments _lru_list {Key Tp} l.
Arguments _current_size {Key Tp} l.
Arguments _max_size {Key Tp} l.
Arguments _expiry {Key Tp} l.
Arguments _refresh {Key Tp} l.
Arguments _timer_period {Key Tp} l.
Arguments Build_loading_cache {Key Tp} _lru_list _current_size _max_size
    _expiry _refresh _timer_period.
Arguments with_entries {Key Tp} c l cs.
Arguments caching_enabled {Key Tp} c.
Arguments has_key {Key Tp} EqualPred k e.
Arguments set_find {Key Tp} EqualPred c k.
Arguments get {Key Tp} c k.
Arguments ready_future {Tp} val.
Arguments entry_is_too_big {Tp}.
Arguments get_cont {Key Tp} EqualPred c k ts_val now.
Arguments reload {Key Tp} e.
Arguments reassign {Key Tp} EqualPred EntrySize c k old new_val now.
Arguments reload_cont {Key Tp} EqualPred EntrySize c k f now.
Arguments expired {Key Tp} c now e.
Arguments drop_expired {Key Tp} c now.
Arguments shrink {Key Tp} c.
Arguments to_reload {Key Tp} refresh examined_at i l.
Arguments on_timer {Key Tp} c now examined_at.
Arguments destructor {Key Tp} c.
Arguments get_resumes {Key Tp} k ts_val now.
Arguments timer_fires {Key Tp} now examined_at.
Arguments reload_resumes {Key Tp} k f now.
Arguments destroyed {Key Tp}.
Arguments step {Key Tp} EqualPred EntrySize c s.
Arguments run {Key Tp} EqualPred EntrySize c ss.
Arguments resident_size {Key Tp} c.
End Anchored.

(** ** [src/unnamed/part_001]: values indexed by an intrusive hash set *)
Module Indexed.
Section Cache.
(** Template parameters [Key], [Tp], [EqualPred], [EntrySize]. *)
Variables Key Tp : Type.
Variable EqualPred : Key -> Key -> bool.
Variable EntrySize : Tp -> Z.

(** [timestamped_val]: a node that the cache allocates and links into both
    [_set] and [_lru_list].  [addr] is the address [Alloc().allocate(1)]
    returned, kept as an allocation serial number: no two nodes share one
    and a freed address is not handed out again.  [key] and [_value] are
    what [to_key(_value_ptr)] and [*_value_ptr] read. *)
Record timestamped_val : Type := {
  addr : nat;
  key : Key;
  _value : Tp;
  _loaded : Z;
  _last_read : Z;
  _size : Z
}.

(** The fields [operator=] writes in the node itself. *)
Definition assigned (new_val : Tp) (now : Z) (v : timestamped_val)
  : timestamped_val :=
  {| addr := addr v; key := key v; _value := new_val; _loaded := now;
     _last_read := _last_read v; _size := EntrySize new_val |}.

(** [touch()]: [_last_read = now()]; the move to the front of the list is
    done by the caller of [read_at]. *)
Definition read_at (now : Z) (v : timestamped_val) : timestamped_val :=
  {| addr := addr v; key := key v; _value := _value v;
     _loaded := _loaded v; _last_read := now; _size := _size v |}.

(** The members of [loading_cache] that hold state.  [ReloadEnabled] is
    the template flag; the [static_assert] of each constructor fixes it.
    [_lru_list] owns the nodes, MRU first.  [_set] links the same nodes:
    a node enters both containers in [get_ptr] and leaves both when it is
    destroyed (the list hook unlinks itself), so the index is read off the
    list.  Bucket arrays are left out: rehashing moves no node in or out.
    [allocations] counts the nodes allocated so far. *)
Record loading_cache : Type := {
  ReloadEnabled : bool;
  _lru_list : list timestamped_val;
  _current_size : Z;
  _max_size : Z;
  _expiry : Z;
  _refresh : Z;
  _timer_period : option Z;
  allocations : nat
}.

Definition _set (c : loading_cache) : list timestamped_val := _lru_list c.

Definition with_entries (c : loading_cache) (l : list timestamped_val)
           (cs : Z) : loading_cache :=
  {| ReloadEnabled := ReloadEnabled c; _lru_list := l; _current_size := cs;
     _max_size := _max_size c; _expiry := _expiry c;
     _refresh := _refresh c; _timer_period := _timer_period c;
     allocations := allocations c |}.

Definition caching_enabled (c : loading_cache) : bool :=
  negb (_expiry c =? 0).

(** The constructor that takes a loader ([ReloadEnabled == true]). *)
Definition loading_cache_ctor (max_size expiry refresh : Z)
  : construction loading_cache :=
  let c := {| ReloadEnabled := true; _lru_list := []; _current_size := 0;
              _max_size := max_size; _expiry := expiry;
              _refresh := refresh; _timer_period := None;
              allocations := 0 |} in
  if negb (caching_enabled c) then constructed c
  else if (refresh =? 0) || (max_size =? 0) then configuration_exception
  else constructed
         {| ReloadEnabled := true; _lru_list := []; _current_size := 0;
            _max_size := max_size; _expiry := expiry;
            _refresh := refresh;
            _timer_period := Some (Z.min expiry refresh);
            allocations := 0 |}.

(** The constructor without a loader ([ReloadEnabled == false]);
    [_refresh] is never read in this mode. *)
Definition loading_cache_ctor_no_reload (max_size expiry : Z)
  : construction loading_cache :=
  let c := {| ReloadEnabled := false; _lru_list := []; _current_size := 0;
              _max_size := max_size; _expiry := expiry; _refresh := 0;
              _timer_period := None; allocations := 0 |} in
  if negb (caching_enabled c) then constructed c
  else if max_size =? 0 then configuration_exception
  else constructed
         {| ReloadEnabled := false; _lru_list := []; _current_size := 0;
            _max_size := max_size; _expiry := expiry; _refresh := 0;
            _timer_period := Some (Z.max (Z.quot expiry 2) 1);
            allocations := 0 |}.

(** [timestamped_val::key_eq]. *)
Definition key_eq (k : Key) (e : timestamped_val) : bool :=
  EqualPred k (key e).

(** [_set.find(k, Hash(), key_eq())]. *)
Definition set_find (c : loading_cache) (k : Key) : option timestamped_val :=
  List.find (key_eq k) (_set c).

Definition entries_count (c : loading_cache) : Z :=
  Z.of_nat (length (_set c)).

Definition size (c : loading_cache) : Z := _current_size c.

(** [get_ptr(k, load)], up to its suspension point.  A hit touches the
    entry ([pointer()]); a miss goes through the shared-values registry and
    resumes in [get_ptr_cont]. *)
Inductive get_ptr_start : Type :=
| assertion_failed
| ready_ptr (c : loading_cache) (val : Tp)
| get_or_load.

Definition get_ptr (c : loading_cache) (k : Key) (now : Z) : get_ptr_start :=
  if negb (caching_enabled c) then assertion_failed
  else
    match extract (key_eq k) (_lru_list c) with
    | Some (e, rest) =>
        ready_ptr (with_entries c (read_at now e :: rest) (_current_size c))
                  (_value e)
    | None => get_or_load
    end.

(** The continuation of [get_ptr]; [val] is what the resolved handle
    [v_ptr] points to.  The node constructor reads the clock at [built]
    and adds the size to the cache total; [pointer()] reads the clock at
    [now] and links the node at the front. *)
Definition get_ptr_cont (c : loading_cache) (k : Key) (val : Tp)
           (built now : Z) : loading_cache * Tp :=
  match extract (key_eq k) (_lru_list c) with
  | None =>
      let new_ts_val :=
        {| addr := allocations c; key := k; _value := val;
           _loaded := built; _last_read := built;
           _size := EntrySize val |} in
      ({| ReloadEnabled := ReloadEnabled c;
          _lru_list := read_at now new_ts_val :: _lru_list c;
          _current_size := size_add (_current_size c) (EntrySize val);
          _max_size := _max_size c; _expiry := _expiry c;
          _refresh := _refresh c; _timer_period := _timer_period c;
          allocations := S (allocations c) |}, val)
  | Some (e, rest) =>
      (with_entries c (read_at now e :: rest) (_current_size c), _value e)
  end.

(** [get(k)], up to its suspension point. *)
Inductive get_start : Type :=
| load_directly
| through_get_ptr (r : get_ptr_start).

Definition get (c : loading_cache) (k : Key) (now : Z) : get_start :=
  if negb (caching_enabled c) then load_directly
  else through_get_ptr (get_ptr c k now).

(** The cache once a call of [get] has reached its suspension point (or
    has returned): only a hit changes it. *)
Definition after_get (c : loading_cache) (k : Key) (now : Z) : loading_cache :=
  match get c k now with
  | through_get_ptr (ready_ptr c' _) => c'
  | _ => c
  end.

(** [erase(k)]: the number of nodes disposed is returned. *)
Definition erase (c : loading_cache) (k : Key) : loading_cache * Z :=
  let (l, cs) := remove_and_dispose_if _size (key_eq k) (_lru_list c)
                   (_current_size c) in
  (with_entries c l cs,
   Z.of_nat (length (_lru_list c)) - Z.of_nat (length l)).

(** [find(k)]: no touch. *)
Definition find (c : loading_cache) (k : Key) : option timestamped_val :=
  set_find c k.

(** [at(k)]. *)
Inductive at_outcome : Type :=
| value_ref (c : loading_cache) (val : Tp)
| entry_not_found.

Definition at_ (c : loading_cache) (k : Key) (now : Z) : at_outcome :=
  match extract (key_eq k) (_lru_list c) with
  | Some (e, rest) =>
      value_ref (with_entries c (read_at now e :: rest) (_current_size c))
                (_value e)
  | None => entry_not_found
  end.

(** [operator[](k)]: the iterator [find] returns is dereferenced unchecked;
    on an absent key that is the end iterator, which is undefined: [None]. *)
Definition subscript (c : loading_cache) (k : Key) (now : Z)
  : option (loading_cache * Tp) :=
  match extract (key_eq k) (_lru_list c) with
  | Some (e, rest) =>
      Some (with_entries c (read_at now e :: rest) (_current_size c),
            _value e)
  | None => None
  end.

(** [remove_if(pred)]: the predicate sees the peeked value. *)
Definition remove_if (c : loading_cache) (pred : Tp -> bool)
  : loading_cache :=
  let (l, cs) := remove_and_dispose_if _size (fun v => pred (_value v))
                   (_lru_list c) (_current_size c) in
  with_entries c l cs.

(** A reference to a node is its address. *)
Definition refers_to (a : nat) (e : timestamped_val) : bool :=
  Nat.eqb a (addr e).

(** [reload(ts_val)], up to its suspension point: the key goes to [_load],
    the continuation keeps the reference [&ts_val]. *)
Definition reload (e : timestamped_val) : Key * nat := (key e, addr e).

(** [operator=] through the reference [ts_val]. *)
Definition reassign (c : loading_cache) (ts_val : nat)
           (old : timestamped_val) (new_val : Tp) (now : Z)
  : loading_cache :=
  with_entries c
    (update_first (refers_to ts_val) (assigned new_val now) (_lru_list c))
    (size_add (size_sub (_current_size c) (_size old)) (EntrySize new_val)).

(** The continuation of [reload], run with the captured reference and the
    resolved loader future.  Both branches go through the reference (the
    assignment, or [ts_val.key()] for the log line): when the node it
    referred to has been destroyed the behaviour is undefined, [None]. *)
Definition reload_cont (c : loading_cache) (ts_val : nat)
           (f : load_result Tp) (now : Z)
  : option (loading_cache * future_state) :=
  match List.find (refers_to ts_val) (_lru_list c) with
  | None => None
  | Some old =>
      Some (match f with
            | loaded new_val => reassign c ts_val old new_val now
            | load_failed => c
            end, resolved)
  end.

(** The predicate of [drop_expired]. *)
Definition expired (c : loading_cache) (now : Z) (v : timestamped_val)
  : bool :=
  let since_last_read := now - _last_read v in
  let since_loaded := now - _loaded v in
  (_expiry c <? since_last_read)
  || (ReloadEnabled c && (_expiry c <? since_loaded)).

Definition drop_expired (c : loading_cache) (now : Z) : loading_cache :=
  let (l, cs) := remove_and_dispose_if _size (expired c now) (_lru_list c)
                   (_current_size c) in
  with_entries c l cs.

Definition shrink (c : loading_cache) : option loading_cache :=
  match shrink_from_back _size (_max_size c) (rev (_lru_list c))
          (_current_size c) with
  | Some (rl, cs) => Some (with_entries c (rev rl) cs)
  | None => None
  end.

(** [on_timer]: [drop_expired] reads the clock ([now]), then [shrink] and
    [periodic_rehash]. *)
Definition on_timer (c : loading_cache) (now : Z) : option loading_cache :=
  shrink (drop_expired c now).

(** [on_timer_with_reload]: [timer_start_tp] is read first, [on_timer]
    runs, and every node of [_set] with
    [loaded() + _refresh < timer_start_tp] is handed to [reload].  The walk
    follows the hash index; the nodes are listed here in LRU order.  The
    deadline [loaded() + _refresh] is a 64-bit sum. *)
Definition on_timer_with_reload (c : loading_cache)
           (timer_start_tp now : Z)
  : option (loading_cache * list timestamped_val) :=
  match on_timer c now with
  | Some c' =>
      Some (c', filter (fun v => time_add (_loaded v) (_refresh c')
                                 <? timer_start_tp)
                  (_set c'))
  | None => None
  end.

(** [~loading_cache]. *)
Definition destructor (c : loading_cache) : loading_cache :=
  with_entries c [] (dispose_all _size (_lru_list c) (_current_size c)).

(** The atomic steps of a cache between two suspension points. *)
Inductive step_label : Type :=
| get_ptr_called (k : Key) (now : Z)
| get_ptr_resumes (k : Key) (val : Tp) (built now : Z)
| erase_called (k : Key)
| remove_if_called (pred : Tp -> bool)
| at_called (k : Key) (now : Z)
| timer_fires (now : Z)
| reload_resumes (ts_val : nat) (f : load_result Tp) (now : Z)
| destroyed.

Definition step (c : loading_cache) (s : step_label)
  : option loading_cache :=
  match s with
  | get_ptr_called k now =>
      match get_ptr c k now with
      | assertion_failed => None
      | ready_ptr c' _ => Some c'
      | get_or_load => Some c
      end
  | get_ptr_resumes k val built now =>
      Some (fst (get_ptr_cont c k val built now))
  | erase_called k => Some (fst (erase c k))
  | remove_if_called pred => Some (remove_if c pred)
  | at_called k now =>
      match at_ c k now with
      | value_ref c' _ => Some c'
      | entry_not_found => Some c
      end
  | timer_fires now => on_timer c now
  | reload_resumes ts_val f now => option_map fst (reload_cont c ts_val f now)
  | destroyed => Some (destructor c)
  end.

Fixpoint run (c : loading_cache) (ss : list step_label)
  : option loading_cache :=
  match ss with
  | [] => Some c
  | s :: ss' =>
      match step c s with
      | Some c' => run c' ss'
      | None => None
      end
  end.

(** The sum the cache total accounts for. *)
Definition resident_size (c : loading_cache) : Z :=
  sum_sizes _size (_set c).
End Cache.
Arguments addr {Key Tp} t.
Arguments key {Key Tp} t.
Arguments _value {Key Tp} t.
Arguments _loaded {Key Tp} t.
Arguments _last_read {Key Tp} t.
Arguments _size {Key Tp} t.
Arguments Build_timestamped_val {Key Tp} addr key _value _loaded _last_read
    _size.
Arguments assigned {Key Tp} EntrySize new_val now v.
Arguments read_at {Key Tp} now v.
Arguments ReloadEnabled {Key Tp} l.
Arguments _lru_list {Key Tp} l.
Arguments _current_size {Key Tp} l.
Arguments _max_size {Key Tp} l.
Arguments _expiry {Key Tp} l.
Arguments _refresh {Key Tp} l.
Arguments _timer_period {Key Tp} l.
Arguments allocations {Key Tp} l.
Arguments Build_loading_cache {Key Tp} ReloadEnabled _lru_list _current_size
    _max_size _expiry _refresh _timer_period allocations.
Arguments _set {Key Tp} c.
Arguments with_entries {Key Tp} c l cs.
Arguments caching_enabled {Key Tp} c.
Arguments key_eq {Key Tp} EqualPred k e.
Arguments set_find {Key Tp} EqualPred c k.
Arguments entries_count {Key Tp} c.
Arguments size {Key Tp} c.
Arguments assertion_failed {Key Tp}.
Arguments ready_ptr {Key Tp} c val.
Arguments get_or_load {Key Tp}.
Arguments get_ptr {Key Tp} EqualPred c k now.
Arguments get_ptr_cont {Key Tp} EqualPred EntrySize c k val built now.
Arguments load_directly {Key Tp}.
Arguments through_get_ptr {Key Tp} r.
Arguments get {Key Tp} EqualPred c k now.
Arguments after_get {Key Tp} EqualPred c k now.
Arguments erase {Key Tp} EqualPred c k.
Arguments find {Key Tp} EqualPred c k.
Arguments value_ref {Key Tp} c val.
Arguments entry_not_found {Key Tp}.
Arguments at_ {Key Tp} EqualPred c k now.
Arguments subscript {Key Tp} EqualPred c k now.
Arguments remove_if {Key Tp} c pred.
Arguments refers_to {Key Tp} a e.
Arguments reload {Key Tp} e.
Arguments reassign {Key Tp} EntrySize c ts_val old new_val now.
Arguments reload_cont {Key Tp} EntrySize c ts_val f now.
Arguments expired {Key Tp} c now v.
Arguments drop_expired {Key Tp} c now.
Arguments shrink {Key Tp} c.
Arguments on_timer {Key Tp} c now.
Arguments on_timer_with_reload {Key Tp} c timer_start_tp now.
Arguments destructor {Key Tp} c.
Arguments get_ptr_called {Key Tp} k now.
Arguments get_ptr_resumes {Key Tp} k val built now.
Arguments erase_called {Key Tp} k.
Arguments remove_if_called {Key Tp} pred.
Arguments at_called {Key Tp} k now.
Arguments timer_fires {Key Tp} now.
Arguments reload_resumes {Key Tp} ts_val f now.
Arguments destroyed {Key Tp}.
Arguments step {Key Tp} EqualPred EntrySize c s.
Arguments run {Key Tp} EqualPred EntrySize c ss.
Arguments resident_size {Key Tp} c.
End Indexed.

(** ** The two revisions side by side

    An entry of [part_001] without its address is an entry of
    [src/utils/loading_cache.hh]; a reloading cache of [part_001] without
    its allocation count is a cache of [src/utils/loading_cache.hh]. *)
Definition anchored_entry_of {Key Tp : Type}
           (v : Indexed.timestamped_val Key Tp) : Anchored.lru_entry Key Tp :=
  {| Anchored.key := Indexed.key v;
     Anchored.timestamped_value :=
       {| Anchored._value := Indexed._value v;
          Anchored._loaded := Indexed._loaded v;
          Anchored._last_read := Indexed._last_read v;
          Anchored._size := Indexed._size v |} |}.

Definition anchored_cache_of {Key Tp : Type}
           (c : Indexed.loading_cache Key Tp) : Anchored.loading_cache Key Tp :=
  {| Anchored._lru_list := map anchored_entry_of (Indexed._lru_list c);
     Anchored._current_size := Indexed._current_size c;
     Anchored._max_size := Indexed._max_size c;
     Anchored._expiry := Indexed._expiry c;
     Anchored._refresh := Indexed._refresh c;
     Anchored._timer_period := Indexed._timer_period c |}.

(** ** A concrete instance: string keys and values, sized by their length

    The instance of the oversize scenario: [max_size = 4] and
    [size(v) = len(v)], with an expiry of one second and a refresh period of
    half a second. *)
Module Scenario.
Import String.
Local Open Scope string_scope.

Definition Key : Type := String.string.

Definition Tp : Type := String.string.

Definition EqualPred : Key -> Key -> bool := String.eqb.

Definition EntrySize (val : Tp) : Z := Z.of_nat (String.length val).

Definition a : String.string := "a".

Definition b : String.string := "b".

Definition hello : String.string := "hello".

(** What [loading_cache(4, 1000ms, 500ms, logger, load)] constructs in
    [src/utils/loading_cache.hh]. *)
Definition anchored_empty : Anchored.loading_cache Key Tp :=
  {| Anchored._lru_list := []; Anchored._current_size := 0;
     Anchored._max_size := 4; Anchored._expiry := 1000;
     Anchored._refresh := 500; Anchored._timer_period := Some 500 |}.

(** The cache after [get("a")] loaded the value ["a"] at time 0. *)
Definition anchored_a : Anchored.loading_cache Key Tp :=
  fst (Anchored.get_cont EqualPred anchored_empty a
         (Anchored.timestamped_val_ctor EntrySize a 0) 0).

(** What the reloading constructor of [part_001] constructs from the same
    arguments, and from a zero expiry. *)
Definition indexed_empty : Indexed.loading_cache Key Tp :=
  {| Indexed.ReloadEnabled := true; Indexed._lru_list := [];
     Indexed._current_size := 0; Indexed._max_size := 4;
     Indexed._expiry := 1000; Indexed._refresh := 500;
     Indexed._timer_period := Some 500; Indexed.allocations := 0 |}.

Definition indexed_disabled : Indexed.loading_cache Key Tp :=
  {| Indexed.ReloadEnabled := true; Indexed._lru_list := [];
     Indexed._current_size := 0; Indexed._max_size := 4;
     Indexed._expiry := 0; Indexed._refresh := 500;
     Indexed._timer_period := None; Indexed.allocations := 0 |}.

(** The cache after [get_ptr("a")] loaded the value ["a"] at time 0. *)
Definition indexed_a : Indexed.loading_cache Key Tp :=
  fst (Indexed.get_ptr_cont EqualPred EntrySize indexed_empty a a 0 0).

(** The node of ["a"] in [indexed_a], and the entry of ["a"] in
    [anchored_a]. *)
Definition node_a : Indexed.timestamped_val Key Tp :=
  {| Indexed.addr := 0; Indexed.key := a; Indexed._value := a;
     Indexed._loaded := 0; Indexed._last_read := 0; Indexed._size := 1 |}.

Definition entry_a : Anchored.lru_entry Key Tp :=
  {| Anchored.key := a;
     Anchored.timestamped_value :=
       {| Anchored._value := a; Anchored._loaded := 0;
          Anchored._last_read := 0; Anchored._size := 1 |} |}.

(** Both caches after a second key, ["b"], was loaded at time 100: the entry
    of ["b"] is in front of the entry of ["a"]. *)
Definition anchored_ba : Anchored.loading_cache Key Tp :=
  fst (Anchored.get_cont EqualPred anchored_a b
         (Anchored.timestamped_val_ctor EntrySize b 100) 100).

Definition indexed_ba : Indexed.loading_cache Key Tp :=
  fst (Indexed.get_ptr_cont EqualPred EntrySize indexed_a b b 100 100).

Definition node_b : Indexed.timestamped_val Key Tp :=
  {| Indexed.addr := 1; Indexed.key := b; Indexed._value := b;
     Indexed._loaded := 100; Indexed._last_read := 100; Indexed._size := 1 |}.

Definition entry_b : Anchored.lru_entry Key Tp :=
  {| Anchored.key := b;
     Anchored.timestamped_value :=
       {| Anchored._value := b; Anchored._loaded := 100;
          Anchored._last_read := 100; Anchored._size := 1 |} |}.

(** Both caches after a third value, ["abc"] of size 3, was loaded at time
    200: the total is 5, one over [max_size]. *)
Definition abc : String.string := "abc".

Definition anchored_over : Anchored.loading_cache Key Tp :=
  fst (Anchored.get_cont EqualPred anchored_ba abc
         (Anchored.timestamped_val_ctor EntrySize abc 200) 200).

Definition indexed_over : Indexed.loading_cache Key Tp :=
  fst (Indexed.get_ptr_cont EqualPred EntrySize indexed_ba abc abc 200 200).

Definition node_abc : Indexed.timestamped_val Key Tp :=
  {| Indexed.addr := 2; Indexed.key := abc; Indexed._value := abc;
     Indexed._loaded := 200; Indexed._last_read := 200; Indexed._size := 3 |}.

Definition entry_abc : Anchored.lru_entry Key Tp :=
  {| Anchored.key := abc;
     Anchored.timestamped_value :=
       {| Anchored._value := abc; Anchored._loaded := 200;
          Anchored._last_read := 200; Anchored._size := 3 |} |}.

(** Caches whose refresh period (two seconds) is longer than their expiry
    period (one second), holding ["a"] loaded at time 0. *)
Definition anchored_lazy : Anchored.loading_cache Key Tp :=
  {| Anchored._lru_list := [entry_a]; Anchored._current_size := 1;
     Anchored._max_size := 4; Anchored._expiry := 1000;
     Anchored._refresh := 2000; Anchored._timer_period := Some 1000 |}.

Definition indexed_lazy : Indexed.loading_cache Key Tp :=
  {| Indexed.ReloadEnabled := true; Indexed._lru_list := [node_a];
     Indexed._current_size := 1; Indexed._max_size := 4;
     Indexed._expiry := 1000; Indexed._refresh := 2000;
     Indexed._timer_period := Some 1000; Indexed.allocations := 1 |}.

(** Caches constructed with the longest refresh period there is,
    [milliseconds::max()], holding ["a"] loaded at time 1. *)
Definition node_late : Indexed.timestamped_val Key Tp :=
  {| Indexed.addr := 0; Indexed.key := a; Indexed._value := a;
     Indexed._loaded := 1; Indexed._last_read := 1; Indexed._size := 1 |}.

Definition indexed_max_refresh : Indexed.loading_cache Key Tp :=
  {| Indexed.ReloadEnabled := true; Indexed._lru_list := [node_late];
     Indexed._current_size := 1; Indexed._max_size := 4;
     Indexed._expiry := 1000; Indexed._refresh := int64_max;
     Indexed._timer_period := Some 1000; Indexed.allocations := 1 |}.

Definition anchored_max_refresh : Anchored.loading_cache Key Tp :=
  {| Anchored._lru_list := [anchored_entry_of node_late];
     Anchored._current_size := 1; Anchored._max_size := 4;
     Anchored._expiry := 1000; Anchored._refresh := int64_max;
     Anchored._timer_period := Some 1000 |}.

(** A run of each cache: loads (one of them oversize), a hit, a reload, an
    erase, a predicate removal and a timer tick. *)
Definition anchored_steps : list (Anchored.step_label Key Tp) :=
  [ Anchored.get_resumes a (Anchored.timestamped_val_ctor EntrySize a 0) 0;
    Anchored.get_resumes hello
      (Anchored.timestamped_val_ctor EntrySize hello 1) 1;
    Anchored.get_resumes b (Anchored.timestamped_val_ctor EntrySize b 100) 100;
    Anchored.reload_resumes a (loaded "abc") 600;
    Anchored.reload_resumes b load_failed 600;
    Anchored.timer_fires 1050 (fun _ => 1050) ].

Definition indexed_steps : list (Indexed.step_label Key Tp) :=
  [ Indexed.get_ptr_called a 0;
    Indexed.get_ptr_resumes a a 0 0;
    Indexed.get_ptr_resumes hello hello 1 1;
    Indexed.get_ptr_resumes b b 100 100;
    Indexed.get_ptr_called a 200;
    Indexed.reload_resumes 0 (loaded "abc") 600;
    Indexed.remove_if_called (String.eqb b);
    Indexed.timer_fires 1050 ].
End Scenario.

(** * Facts about [size_t] arithmetic and the intrusive list operations *)

Lemma wrap_add_l (a b : Z) : wrap (wrap a + b) = wrap (a + b).
Proof. unfold wrap. apply Z.add_mod_idemp_l. discriminate. Qed.

Lemma wrap_sub_l (a b : Z) : wrap (wrap a - b) = wrap (a - b).
Proof. unfold wrap. apply Zminus_mod_idemp_l. Qed.

Lemma wrap_zero : wrap 0 = 0.
Proof. reflexivity. Qed.

Lemma wrap_range (x : Z) : 0 <= wrap x < size_t_modulus.
Proof. unfold wrap. apply Z.mod_pos_bound. reflexivity. Qed.

Lemma wrap_small (x : Z) : 0 <= x < size_t_modulus -> wrap x = x.
Proof. intros H. unfold wrap. apply Z.mod_small. exact H. Qed.

Lemma size_add_accounted (cs s x : Z) :
  cs = wrap s -> size_add cs x = wrap (s + x).
Proof. intros ->. apply wrap_add_l. Qed.

Lemma size_sub_accounted (cs s x : Z) :
  cs = wrap s -> size_sub cs x = wrap (s - x).
Proof. intros ->. apply wrap_sub_l. Qed.

Section IntrusiveListFacts.
Context {A : Type}.
Variable sz : A -> Z.

Lemma sum_sizes_app (l1 l2 : list A) :
  sum_sizes sz (l1 ++ l2) = sum_sizes sz l1 + sum_sizes sz l2.
Proof. induction l1 as [|e l1 IH]; simpl; [reflexivity | lia]. Qed.

Lemma sum_sizes_rev (l : list A) : sum_sizes sz (rev l) = sum_sizes sz l.
Proof.
  induction l as [|e l IH]; simpl; [reflexivity|].
  rewrite sum_sizes_app, IH. simpl. lia.
Qed.

Lemma extract_find (p : A -> bool) (l : list A) :
  find p l = option_map fst (extract p l).
Proof.
  induction l as [|e l IH]; simpl; [reflexivity|].
  destruct (p e); [reflexivity|].
  rewrite IH. destruct (extract p l) as [[x r]|]; reflexivity.
Qed.

Lemma extract_none_find (p : A -> bool) (l : list A) :
  extract p l = None <-> find p l = None.
Proof.
  rewrite extract_find. destruct (extract p l) as [[x r]|]; simpl;
    split; congruence.
Qed.

(** What [extract] splits off: the list is [l1 ++ e :: l2], no node of
    [l1] satisfies [p], and the rest is [l1 ++ l2]. *)
Lemma extract_split (p : A -> bool) (l : list A) (e : A) (r : list A) :
  extract p l = Some (e, r) ->
  exists l1 l2, l = l1 ++ e :: l2 /\ r = l1 ++ l2 /\ p e = true
                /\ forallb (fun x => negb (p x)) l1 = true.
Proof.
  revert r. induction l as [|x l IH]; simpl; intros r H; [discriminate|].
  destruct (p x) eqn:Hp.
  - injection H as <- <-. exists [], l. simpl. auto.
  - destruct (extract p l) as [[y r']|]; [|discriminate].
    injection H as <- <-.
    destruct (IH r' eq_refl) as (l1 & l2 & -> & -> & Hy & Hl1).
    exists (x :: l1), l2. simpl. rewrite Hp, Hl1. auto.
Qed.

Lemma extract_sum (p : A -> bool) (l : list A) (e : A) (r : list A) :
  extract p l = Some (e, r) -> sum_sizes sz l = sz e + sum_sizes sz r.
Proof.
  intros H. destruct (extract_split _ _ _ _ H) as (l1 & l2 & -> & -> & _).
  rewrite !sum_sizes_app. simpl. lia.
Qed.

Lemma update_first_sum (p : A -> bool) (f : A -> A) (l : list A) (old : A) :
  find p l = Some old ->
  sum_sizes sz (update_first p f l) = sum_sizes sz l - sz old + sz (f old).
Proof.
  induction l as [|e l IH]; simpl; [discriminate|].
  destruct (p e); intros H.
  - injection H as ->. simpl. lia.
  - simpl. rewrite (IH H). lia.
Qed.

(** In place: the node found keeps its position. *)
Lemma update_first_split (p : A -> bool) (f : A -> A) (l1 l2 : list A)
      (e : A) :
  forallb (fun x => negb (p x)) l1 = true -> p e = true ->
  update_first p f (l1 ++ e :: l2) = l1 ++ f e :: l2.
Proof.
  intros Hl1 He. induction l1 as [|x l1 IH]; simpl in *.
  - rewrite He. reflexivity.
  - apply andb_true_iff in Hl1 as [Hx Hl1].
    apply negb_true_iff in Hx. rewrite Hx, (IH Hl1). reflexivity.
Qed.

Lemma find_split (p : A -> bool) (l1 l2 : list A) (e : A) :
  forallb (fun x => negb (p x)) l1 = true -> p e = true ->
  find p (l1 ++ e :: l2) = Some e.
Proof.
  intros Hl1 He. induction l1 as [|x l1 IH]; simpl in *.
  - rewrite He. reflexivity.
  - apply andb_true_iff in Hl1 as [Hx Hl1].
    apply negb_true_iff in Hx. rewrite Hx. exact (IH Hl1).
Qed.

(** The nodes [remove_and_dispose_if] keeps are those that fail the
    predicate, in their order. *)
Lemma remove_and_dispose_if_kept (pred : A -> bool) (l : list A) (cs : Z) :
  fst (remove_and_dispose_if sz pred l cs)
  = filter (fun e => negb (pred e)) l.
Proof.
  revert cs. induction l as [|e l IH]; intros cs; simpl; [reflexivity|].
  destruct (pred e); simpl.
  - apply IH.
  - specialize (IH cs).
    destruct (remove_and_dispose_if sz pred l cs) as [r cs'].
    simpl in *. congruence.
Qed.

Lemma remove_and_dispose_if_accounted (pred : A -> bool) (l : list A)
      (cs : Z) :
  cs = wrap (sum_sizes sz l) ->
  snd (remove_and_dispose_if sz pred l cs)
  = wrap (sum_sizes sz (fst (remove_and_dispose_if sz pred l cs))).
Proof.
  assert (G : forall k, cs = wrap (k + sum_sizes sz l) ->
    snd (remove_and_dispose_if sz pred l cs)
    = wrap (k + sum_sizes sz (fst (remove_and_dispose_if sz pred l cs)))).
  { revert cs. induction l as [|e l IH]; intros cs k H; simpl in *.
    - exact H.
    - destruct (pred e).
      + apply IH. rewrite (size_sub_accounted _ _ _ H). f_equal. lia.
      + specialize (IH cs (k + sz e)).
        destruct (remove_and_dispose_if sz pred l cs) as [r cs'].
        simpl in *. rewrite IH.
        * f_equal. lia.
        * rewrite H. f_equal. lia. }
  intros H. apply (G 0). exact H.
Qed.

Lemma shrink_from_back_accounted (max : Z) (rl rl' : list A) (cs cs' : Z) :
  cs = wrap (sum_sizes sz rl) ->
  shrink_from_back sz max rl cs = Some (rl', cs') ->
  cs' = wrap (sum_sizes sz rl').
Proof.
  revert cs. induction rl as [|e rl IH]; intros cs H; simpl.
  - destruct (max <? cs); [discriminate|]. intros [= <- <-]. exact H.
  - destruct (max <? cs).
    + apply IH. simpl in H.
      rewrite (size_sub_accounted _ _ _ H). f_equal. lia.
    + intros [= <- <-]. exact H.
Qed.

(** [shrink] never runs off an empty list while the total is accounted
    for: an empty list has total [0]. *)
Lemma shrink_from_back_defined (max : Z) (rl : list A) (cs : Z) :
  0 <= max -> cs = wrap (sum_sizes sz rl) ->
  exists r, shrink_from_back sz max rl cs = Some r.
Proof.
  intros Hmax. revert cs. induction rl as [|e rl IH]; intros cs H; simpl.
  - simpl in H. rewrite wrap_zero in H. subst cs.
    destruct (max <? 0) eqn:E; [apply Z.ltb_lt in E; lia|]. eauto.
  - destruct (max <? cs); [|eauto].
    apply IH. simpl in H.
    rewrite (size_sub_accounted _ _ _ H). f_equal. lia.
Qed.

(** When [shrink] returns the total is within [max]. *)
Lemma shrink_from_back_bound (max : Z) (rl rl' : list A) (cs cs' : Z) :
  shrink_from_back sz max rl cs = Some (rl', cs') -> cs' <= max.
Proof.
  revert cs. induction rl as [|e rl IH]; intros cs; simpl.
  - destruct (max <? cs) eqn:E; [discriminate|].
    intros [= <- <-]. apply Z.ltb_ge in E. exact E.
  - destruct (max <? cs) eqn:E; [apply IH|].
    intros [= <- <-]. apply Z.ltb_ge in E. exact E.
Qed.

Lemma dispose_all_accounted (l : list A) (cs : Z) :
  cs = wrap (sum_sizes sz l) -> dispose_all sz l cs = 0.
Proof.
  revert cs. induction l as [|e l IH]; intros cs H; simpl in *.
  - rewrite H. apply wrap_zero.
  - apply IH. rewrite (size_sub_accounted _ _ _ H). f_equal. lia.
Qed.
End IntrusiveListFacts.

(** * Size accounting in [src/utils/loading_cache.hh] *)
Section AnchoredAccounting.
Context {Key Tp : Type}.
Variable EqualPred : Key -> Key -> bool.
Variable EntrySize : Tp -> Z.
Implicit Types c : Anchored.loading_cache Key Tp.

Lemma anchored_entry_size_on_value (f : Anchored.timestamped_val Tp -> _)
      (e : Anchored.lru_entry Key Tp) :
  Anchored.entry_size (Anchored.on_value f e)
  = Anchored._size (f (Anchored.timestamped_value e)).
Proof. reflexivity. Qed.

Lemma anchored_get_cont_accounted c k ts_val now :
  Anchored._current_size c = wrap (Anchored.resident_size c) ->
  let c' := fst (Anchored.get_cont EqualPred c k ts_val now) in
  Anchored._current_size c' = wrap (Anchored.resident_size c').
Proof.
  intros H. unfold Anchored.get_cont.
  destruct (extract _ _) as [[e rest]|] eqn:E.
  - simpl. rewrite H. unfold Anchored.resident_size. simpl.
    rewrite (extract_sum Anchored.entry_size _ _ _ _ E). reflexivity.
  - destruct (_ <? _); simpl; [exact H|].
    unfold Anchored.resident_size. simpl.
    rewrite (size_add_accounted _ _ _ H). f_equal.
    unfold Anchored.resident_size, Anchored.entry_size. simpl. lia.
Qed.

Lemma anchored_reload_cont_accounted c k f now :
  Anchored._current_size c = wrap (Anchored.resident_size c) ->
  let c' := fst (Anchored.reload_cont EqualPred EntrySize c k f now) in
  Anchored._current_size c' = wrap (Anchored.resident_size c').
Proof.
  intros H. unfold Anchored.reload_cont, Anchored.set_find.
  destruct (find _ _) as [old|] eqn:E; [|exact H].
  destruct f as [new_val|]; [|exact H].
  simpl. unfold Anchored.resident_size. simpl.
  rewrite (update_first_sum Anchored.entry_size _ _ _ _ E).
  rewrite (size_sub_accounted _ _ _ H). unfold size_add.
  rewrite wrap_add_l. reflexivity.
Qed.

Lemma anchored_drop_expired_accounted c now :
  Anchored._current_size c = wrap (Anchored.resident_size c) ->
  let c' := Anchored.drop_expired c now in
  Anchored._current_size c' = wrap (Anchored.resident_size c').
Proof.
  intros H. unfold Anchored.drop_expired.
  pose proof (remove_and_dispose_if_accounted Anchored.entry_size
                (Anchored.expired c now) _ _ H) as G.
  destruct (remove_and_dispose_if _ _ _ _) as [l cs]. exact G.
Qed.

Lemma anchored_shrink_accounted c c' :
  Anchored._current_size c = wrap (Anchored.resident_size c) ->
  Anchored.shrink c = Some c' ->
  Anchored._current_size c' = wrap (Anchored.resident_size c').
Proof.
  intros H. unfold Anchored.shrink.
  destruct (shrink_from_back _ _ _ _) as [[rl cs]|] eqn:E; [|discriminate].
  intros [= <-]. simpl. unfold Anchored.resident_size. simpl.
  rewrite sum_sizes_rev.
  apply (shrink_from_back_accounted _ _ _ _ _ _ (eq_trans H
           (f_equal wrap (eq_sym (sum_sizes_rev _ _)))) E).
Qed.

Lemma anchored_shrink_defined c :
  0 <= Anchored._max_size c ->
  Anchored._current_size c = wrap (Anchored.resident_size c) ->
  exists c', Anchored.shrink c = Some c'.
Proof.
  intros Hmax H. unfold Anchored.shrink.
  destruct (shrink_from_back_defined Anchored.entry_size
              (Anchored._max_size c) (rev (Anchored._lru_list c))
              (Anchored._current_size c) Hmax) as [[rl cs] E].
  - rewrite sum_sizes_rev. exact H.
  - rewrite E. eauto.
Qed.

Lemma anchored_destructor_accounted c :
  Anchored._current_size c = wrap (Anchored.resident_size c) ->
  let c' := Anchored.destructor c in
  Anchored._current_size c' = wrap (Anchored.resident_size c').
Proof.
  intros H. simpl. unfold Anchored.resident_size. simpl.
  rewrite wrap_zero. apply dispose_all_accounted. exact H.
Qed.

Lemma anchored_drop_expired_max_size c now :
  Anchored._max_size (Anchored.drop_expired c now) = Anchored._max_size c.
Proof.
  unfold Anchored.drop_expired.
  destruct (remove_and_dispose_if _ _ _ _). reflexivity.
Qed.

Lemma anchored_step_max_size c s c' :
  Anchored.step EqualPred EntrySize c s = Some c' ->
  Anchored._max_size c' = Anchored._max_size c.
Proof.
  destruct s as [k ts_val now|now examined_at|k f now|]; simpl.
  - intros [= <-]. unfold Anchored.get_cont.
    destruct (extract _ _) as [[e rest]|]; [reflexivity|].
    destruct (_ <? _); reflexivity.
  - unfold Anchored.on_timer, Anchored.shrink.
    destruct (shrink_from_back _ _ _ _) as [[rl cs]|]; [|discriminate].
    simpl. intros [= <-]. simpl. apply anchored_drop_expired_max_size.
  - intros [= <-]. unfold Anchored.reload_cont.
    destruct (Anchored.set_find _ _ _); [|reflexivity].
    destruct f; reflexivity.
  - intros [= <-]. reflexivity.
Qed.

Lemma anchored_step_accounted c s c' :
  Anchored._current_size c = wrap (Anchored.resident_size c) ->
  Anchored.step EqualPred EntrySize c s = Some c' ->
  Anchored._current_size c' = wrap (Anchored.resident_size c').
Proof.
  intros H. destruct s as [k ts_val now|now examined_at|k f now|]; simpl.
  - intros [= <-]. apply anchored_get_cont_accounted, H.
  - unfold Anchored.on_timer.
    destruct (Anchored.shrink _) as [c1|] eqn:E; [|discriminate].
    simpl. intros [= <-].
    apply (anchored_shrink_accounted _ _
             (anchored_drop_expired_accounted c now H) E).
  - intros [= <-]. apply anchored_reload_cont_accounted, H.
  - intros [= <-]. apply anchored_destructor_accounted, H.
Qed.

Lemma anchored_step_defined c s :
  0 <= Anchored._max_size c ->
  Anchored._current_size c = wrap (Anchored.resident_size c) ->
  exists c', Anchored.step EqualPred EntrySize c s = Some c'.
Proof.
  intros Hmax H. destruct s as [k ts_val now|now examined_at|k f now|];
    simpl; eauto.
  unfold Anchored.on_timer.
  destruct (anchored_shrink_defined (Anchored.drop_expired c now)) as [c1 E].
  - rewrite anchored_drop_expired_max_size. exact Hmax.
  - apply anchored_drop_expired_accounted, H.
  - rewrite E. simpl. eauto.
Qed.

Lemma anchored_run_accounted c ss :
  0 <= Anchored._max_size c ->
  Anchored._current_size c = wrap (Anchored.resident_size c) ->
  exists c', Anchored.run EqualPred EntrySize c ss = Some c'
             /\ Anchored._current_size c' = wrap (Anchored.resident_size c').
Proof.
  revert c. induction ss as [|s ss IH]; intros c Hmax H; simpl.
  - eauto.
  - destruct (anchored_step_defined c s Hmax H) as [c1 E]. rewrite E.
    apply IH.
    + rewrite (anchored_step_max_size _ _ _ E). exact Hmax.
    + apply (anchored_step_accounted _ _ _ H E).
Qed.
End AnchoredAccounting.

(** * Size accounting in [src/unnamed/part_001] *)
Section IndexedAccounting.
Context {Key Tp : Type}.
Variable EqualPred : Key -> Key -> bool.
Variable EntrySize : Tp -> Z.
Implicit Types c : Indexed.loading_cache Key Tp.

Lemma indexed_touch_accounted c p now e rest :
  Indexed._current_size c = wrap (Indexed.resident_size c) ->
  extract p (Indexed._lru_list c) = Some (e, rest) ->
  let c' := Indexed.with_entries c (Indexed.read_at now e :: rest)
              (Indexed._current_size c) in
  Indexed._current_size c' = wrap (Indexed.resident_size c').
Proof.
  intros H E. simpl. rewrite H.
  unfold Indexed.resident_size, Indexed._set. simpl.
  rewrite (extract_sum Indexed._size _ _ _ _ E). reflexivity.
Qed.

Lemma indexed_get_ptr_cont_accounted c k val built now :
  Indexed._current_size c = wrap (Indexed.resident_size c) ->
  let c' := fst (Indexed.get_ptr_cont EqualPred EntrySize c k val built now) in
  Indexed._current_size c' = wrap (Indexed.resident_size c').
Proof.
  intros H. unfold Indexed.get_ptr_cont.
  destruct (extract _ _) as [[e rest]|] eqn:E.
  - apply (indexed_touch_accounted _ _ _ _ _ H E).
  - simpl. unfold Indexed.resident_size, Indexed._set. simpl.
    rewrite (size_add_accounted _ _ _ H). f_equal.
    unfold Indexed.resident_size, Indexed._set. lia.
Qed.

Lemma indexed_dispose_if_accounted c pred :
  Indexed._current_size c = wrap (Indexed.resident_size c) ->
  let r := remove_and_dispose_if Indexed._size pred (Indexed._lru_list c)
             (Indexed._current_size c) in
  let c' := Indexed.with_entries c (fst r) (snd r) in
  Indexed._current_size c' = wrap (Indexed.resident_size c').
Proof.
  intros H. simpl.
  apply (remove_and_dispose_if_accounted Indexed._size pred _ _ H).
Qed.

Lemma indexed_erase_accounted c k :
  Indexed._current_size c = wrap (Indexed.resident_size c) ->
  let c' := fst (Indexed.erase EqualPred c k) in
  Indexed._current_size c' = wrap (Indexed.resident_size c').
Proof.
  intros H. unfold Indexed.erase.
  pose proof (indexed_dispose_if_accounted c (Indexed.key_eq EqualPred k) H)
    as G.
  destruct (remove_and_dispose_if _ _ _ _) as [l cs]. exact G.
Qed.

Lemma indexed_remove_if_accounted c pred :
  Indexed._current_size c = wrap (Indexed.resident_size c) ->
  let c' := Indexed.remove_if c pred in
  Indexed._current_size c' = wrap (Indexed.resident_size c').
Proof.
  intros H. unfold Indexed.remove_if.
  pose proof (indexed_dispose_if_accounted c
                (fun v => pred (Indexed._value v)) H) as G.
  destruct (remove_and_dispose_if _ _ _ _) as [l cs]. exact G.
Qed.

Lemma indexed_drop_expired_accounted c now :
  Indexed._current_size c = wrap (Indexed.resident_size c) ->
  let c' := Indexed.drop_expired c now in
  Indexed._current_size c' = wrap (Indexed.resident_size c').
Proof.
  intros H. unfold Indexed.drop_expired.
  pose proof (indexed_dispose_if_accounted c (Indexed.expired c now) H) as G.
  destruct (remove_and_dispose_if _ _ _ _) as [l cs]. exact G.
Qed.

Lemma indexed_shrink_accounted c c' :
  Indexed._current_size c = wrap (Indexed.resident_size c) ->
  Indexed.shrink c = Some c' ->
  Indexed._current_size c' = wrap (Indexed.resident_size c').
Proof.
  intros H. unfold Indexed.shrink.
  destruct (shrink_from_back _ _ _ _) as [[rl cs]|] eqn:E; [|discriminate].
  intros [= <-]. simpl. unfold Indexed.resident_size, Indexed._set. simpl.
  rewrite sum_sizes_rev.
  apply (shrink_from_back_accounted _ _ _ _ _ _ (eq_trans H
           (f_equal wrap (eq_sym (sum_sizes_rev _ _)))) E).
Qed.

Lemma indexed_reload_cont_accounted c ts_val f now r :
  Indexed._current_size c = wrap (Indexed.resident_size c) ->
  Indexed.reload_cont EntrySize c ts_val f now = Some r ->
  Indexed._current_size (fst r) = wrap (Indexed.resident_size (fst r)).
Proof.
  intros H. unfold Indexed.reload_cont.
  destruct (List.find _ _) as [old|] eqn:E; [|discriminate].
  intros [= <-]. destruct f as [new_val|]; [|exact H].
  simpl. unfold Indexed.resident_size, Indexed._set. simpl.
  rewrite (update_first_sum Indexed._size _ _ _ _ E).
  rewrite (size_sub_accounted _ _ _ H). unfold size_add.
  rewrite wrap_add_l. reflexivity.
Qed.

Lemma indexed_destructor_accounted c :
  Indexed._current_size c = wrap (Indexed.resident_size c) ->
  let c' := Indexed.destructor c in
  Indexed._current_size c' = wrap (Indexed.resident_size c').
Proof.
  intros H. simpl. unfold Indexed.resident_size, Indexed._set. simpl.
  rewrite wrap_zero. apply dispose_all_accounted. exact H.
Qed.

Lemma indexed_step_accounted c s c' :
  Indexed._current_size c = wrap (Indexed.resident_size c) ->
  Indexed.step EqualPred EntrySize c s = Some c' ->
  Indexed._current_size c' = wrap (Indexed.resident_size c').
Proof.
  intros H.
  destruct s as [k now|k val built now|k|pred|k now|now|ts_val f now|]; simpl.
  - unfold Indexed.get_ptr. destruct (negb _); [discriminate|].
    destruct (extract _ _) as [[e rest]|] eqn:E; intros [= <-]; [|exact H].
    apply (indexed_touch_accounted _ _ _ _ _ H E).
  - intros [= <-]. apply indexed_get_ptr_cont_accounted, H.
  - intros [= <-]. apply indexed_erase_accounted, H.
  - intros [= <-]. apply indexed_remove_if_accounted, H.
  - unfold Indexed.at_.
    destruct (extract _ _) as [[e rest]|] eqn:E; intros [= <-]; [|exact H].
    apply (indexed_touch_accounted _ _ _ _ _ H E).
  - unfold Indexed.on_timer.
    apply indexed_shrink_accounted, indexed_drop_expired_accounted, H.
  - destruct (Indexed.reload_cont _ _ _ _ _) as [r|] eqn:E; [|discriminate].
    simpl. intros [= <-]. apply (indexed_reload_cont_accounted _ _ _ _ _ H E).
  - intros [= <-]. apply indexed_destructor_accounted, H.
Qed.

Lemma indexed_run_accounted c ss c' :
  Indexed._current_size c = wrap (Indexed.resident_size c) ->
  Indexed.run EqualPred EntrySize c ss = Some c' ->
  Indexed._current_size c' = wrap (Indexed.resident_size c').
Proof.
  revert c. induction ss as [|s ss IH]; intros c H; simpl.
  - intros [= <-]. exact H.
  - destruct (Indexed.step _ _ c s) as [c1|] eqn:E; [|discriminate].
    apply IH, (indexed_step_accounted _ _ _ H E).
Qed.
End IndexedAccounting.

(** * The expiry sweep keeps the entries that are not expired, in order *)

Lemma anchored_drop_expired_kept {Key Tp : Type}
      (c : Anchored.loading_cache Key Tp) (now : Z) :
  Anchored._lru_list (Anchored.drop_expired c now)
  = filter (fun e => negb (Anchored.expired c now e)) (Anchored._lru_list c).
Proof.
  unfold Anchored.drop_expired.
  rewrite <- (remove_and_dispose_if_kept Anchored.entry_size
                (Anchored.expired c now) (Anchored._lru_list c)
                (Anchored._current_size c)).
  destruct (remove_and_dispose_if _ _ _ _). reflexivity.
Qed.

Lemma indexed_drop_expired_kept {Key Tp : Type}
      (c : Indexed.loading_cache Key Tp) (now : Z) :
  Indexed._lru_list (Indexed.drop_expired c now)
  = filter (fun e => negb (Indexed.expired c now e)) (Indexed._lru_list c).
Proof.
  unfold Indexed.drop_expired.
  rewrite <- (remove_and_dispose_if_kept Indexed._size
                (Indexed.expired c now) (Indexed._lru_list c)
                (Indexed._current_size c)).
  destruct (remove_and_dispose_if _ _ _ _). reflexivity.
Qed.

Lemma anchored_expired_iff {Key Tp : Type}
      (c : Anchored.loading_cache Key Tp) (now : Z)
      (e : Anchored.lru_entry Key Tp) :
  Anchored.expired c now e = true <->
  Anchored._expiry c < now - Anchored._last_read (Anchored.timestamped_value e)
  \/ Anchored._expiry c < now - Anchored._loaded (Anchored.timestamped_value e).
Proof.
  unfold Anchored.expired. cbv zeta.
  rewrite orb_true_iff, !Z.ltb_lt. reflexivity.
Qed.

Lemma indexed_expired_iff {Key Tp : Type}
      (c : Indexed.loading_cache Key Tp) (now : Z)
      (e : Indexed.timestamped_val Key Tp) :
  Indexed.expired c now e = true <->
  Indexed._expiry c < now - Indexed._last_read e
  \/ (Indexed.ReloadEnabled c = true
      /\ Indexed._expiry c < now - Indexed._loaded e).
Proof.
  unfold Indexed.expired. cbv zeta.
  rewrite orb_true_iff, andb_true_iff, !Z.ltb_lt. reflexivity.
Qed.

(** * The refresh step *)

Lemma time_add_in_range (t d : Z) :
  int64_min <= t + d <= int64_max -> time_add t d = t + d.
Proof.
  unfold time_add, int64_wrap, int64_min, int64_max. intros H.
  rewrite Z.mod_small; lia.
Qed.

(** The entries the refresh step of [src/utils/loading_cache.hh] hands to
    [reload]: the entry at position [j] is taken when its load time plus
    the refresh period is before the clock reading of its examination. *)
Lemma anchored_to_reload_In {Key Tp : Type} (refresh : Z)
      (examined_at : nat -> Z) (l : list (Anchored.lru_entry Key Tp))
      (i : nat) (e : Anchored.lru_entry Key Tp) :
  In e (Anchored.to_reload refresh examined_at i l) <->
  exists j, nth_error l j = Some e
            /\ time_add (Anchored._loaded (Anchored.timestamped_value e))
                 refresh
               < examined_at (i + j)%nat.
Proof.
  revert i. induction l as [|x l IH]; intros i; simpl.
  - split; [contradiction|]. intros [[|j] [H _]]; discriminate.
  - destruct (_ <? _) eqn:E.
    + simpl. rewrite IH. apply Z.ltb_lt in E. split.
      * intros [<-|[j [Hj Hlt]]].
        -- exists 0%nat. rewrite Nat.add_0_r. auto.
        -- exists (S j). rewrite Nat.add_succ_r. auto.
      * intros [[|j] [Hj Hlt]]; simpl in Hj.
        -- left. congruence.
        -- right. exists j. rewrite Nat.add_succ_r in Hlt. auto.
    + rewrite IH. apply Z.ltb_ge in E. split.
      * intros [j [Hj Hlt]]. exists (S j). rewrite Nat.add_succ_r. auto.
      * intros [[|j] [Hj Hlt]]; simpl in Hj.
        -- injection Hj as <-. rewrite Nat.add_0_r in Hlt. lia.
        -- exists j. rewrite Nat.add_succ_r in Hlt. auto.
Qed.

(** With one clock value for the whole walk the selection is a filter. *)
Lemma anchored_to_reload_constant_clock {Key Tp : Type} (refresh t : Z)
      (l : list (Anchored.lru_entry Key Tp)) (i : nat) :
  Anchored.to_reload refresh (fun _ => t) i l
  = filter (fun e =>
              time_add (Anchored._loaded (Anchored.timestamped_value e))
                refresh <? t) l.
Proof.
  revert i. induction l as [|x l IH]; intros i; simpl; [reflexivity|].
  rewrite IH. reflexivity.
Qed.

(** * The foreground and background paths of [src/utils/loading_cache.hh] *)

(** A freshly loaded value that is bigger than [_max_size] is refused: the
    continuation of [get] fails with [entry_is_too_big] and the cache is the
    one it started from. *)
Lemma anchored_get_rejects_oversize_value {Key Tp : Type}
      (EqualPred : Key -> Key -> bool) (EntrySize : Tp -> Z)
      (c : Anchored.loading_cache Key Tp) (k : Key) (val : Tp)
      (loaded_at now : Z) :
  Anchored.set_find EqualPred c k = None ->
  Anchored._max_size c < EntrySize val ->
  Anchored.get_cont EqualPred c k
    (Anchored.timestamped_val_ctor EntrySize val loaded_at) now
  = (c, Anchored.entry_is_too_big).
Proof.
  intros Hfind Hbig. unfold Anchored.get_cont.
  apply extract_none_find in Hfind. rewrite Hfind. simpl.
  apply Z.ltb_lt in Hbig. rewrite Hbig. reflexivity.
Qed.

(** A value that fits is installed at the front with its size added. *)
Lemma anchored_get_installs_fitting_value {Key Tp : Type}
      (EqualPred : Key -> Key -> bool) (EntrySize : Tp -> Z)
      (c : Anchored.loading_cache Key Tp) (k : Key) (val : Tp)
      (loaded_at now : Z) :
  Anchored.set_find EqualPred c k = None ->
  EntrySize val <= Anchored._max_size c ->
  Anchored.get_cont EqualPred c k
    (Anchored.timestamped_val_ctor EntrySize val loaded_at) now
  = (Anchored.with_entries c
       ({| Anchored.key := k;
           Anchored.timestamped_value :=
             {| Anchored._value := val; Anchored._loaded := loaded_at;
                Anchored._last_read := now;
                Anchored._size := EntrySize val |} |}
          :: Anchored._lru_list c)
       (wrap (Anchored._current_size c + EntrySize val)),
     Anchored.ready_future val).
Proof.
  intros Hfind Hfit. unfold Anchored.get_cont.
  apply extract_none_find in Hfind. rewrite Hfind. simpl.
  apply Z.ltb_ge in Hfit. rewrite Hfit. reflexivity.
Qed.

(** The continuation of [reload] looks the captured key up again: when no
    entry answers to it the loaded result is dropped and the cache is left
    as it is. *)
Lemma anchored_reload_drops_result_of_evicted_entry {Key Tp : Type}
      (EqualPred : Key -> Key -> bool) (EntrySize : Tp -> Z)
      (c : Anchored.loading_cache Key Tp) (k : Key) (f : load_result Tp)
      (now : Z) :
  Anchored.set_find EqualPred c k = None ->
  Anchored.reload_cont EqualPred EntrySize c k f now = (c, resolved).
Proof.
  intros Hfind. unfold Anchored.reload_cont. rewrite Hfind. reflexivity.
Qed.

(** A node of the list is found through its own address. *)
Lemma indexed_find_by_address {Key Tp : Type}
      (l : list (Indexed.timestamped_val Key Tp))
      (v : Indexed.timestamped_val Key Tp) :
  In v l -> exists old, find (Indexed.refers_to (Indexed.addr v)) l = Some old.
Proof.
  intros Hin. destruct (find _ l) as [old|] eqn:E; [eauto|].
  pose proof (find_none _ _ E v Hin) as H.
  unfold Indexed.refers_to in H. rewrite Nat.eqb_refl in H. discriminate.
Qed.

(** The caches the constructors return are empty, with a zero total. *)
Lemma anchored_ctor_empty {Key Tp : Type} (max_size expiry refresh : Z)
      (c : Anchored.loading_cache Key Tp) :
  Anchored.loading_cache_ctor Key Tp max_size expiry refresh = constructed c ->
  Anchored._lru_list c = [] /\ Anchored._current_size c = 0
  /\ Anchored._max_size c = max_size.
Proof.
  unfold Anchored.loading_cache_ctor.
  destruct (negb _); [intros [= <-]; auto|].
  destruct (_ || _); [discriminate|]. intros [= <-]; auto.
Qed.

Lemma indexed_ctor_empty {Key Tp : Type} (max_size expiry refresh : Z)
      (c : Indexed.loading_cache Key Tp) :
  Indexed.loading_cache_ctor Key Tp max_size expiry refresh = constructed c
  \/ Indexed.loading_cache_ctor_no_reload Key Tp max_size expiry
     = constructed c ->
  Indexed._lru_list c = [] /\ Indexed._current_size c = 0.
Proof.
  unfold Indexed.loading_cache_ctor, Indexed.loading_cache_ctor_no_reload.
  intros [H|H]; revert H.
  - destruct (negb _); [intros [= <-]; auto|].
    destruct (_ || _); [discriminate|]. intros [= <-]; auto.
  - destruct (negb _); [intros [= <-]; auto|].
    destruct (_ =? _); [discriminate|]. intros [= <-]; auto.
Qed.

(** * The constructor and the disabled cache *)

(** C5.  With a non-zero expiry the constructor throws the configuration
    exception exactly when [max_size] is zero or, for the constructors that
    take a refresh period (reload mode), when [refresh] is zero; with a zero
    expiry every constructor returns a cache, whatever [max_size] and
    [refresh] are. *)
Theorem constructor_rejects_invalid_configuration
        (Key Tp : Type) (max_size expiry refresh : Z) :
  (expiry <> 0 ->
   (Anchored.loading_cache_ctor Key Tp max_size expiry refresh
    = configuration_exception <-> max_size = 0 \/ refresh = 0)
   /\ (Indexed.loading_cache_ctor Key Tp max_size expiry refresh
       = configuration_exception <-> max_size = 0 \/ refresh = 0)
   /\ (Indexed.loading_cache_ctor_no_reload Key Tp max_size expiry
       = configuration_exception <-> max_size = 0))
  /\ (expiry = 0 ->
      (exists c, Anchored.loading_cache_ctor Key Tp max_size expiry refresh
                 = constructed c)
      /\ (exists c, Indexed.loading_cache_ctor Key Tp max_size expiry refresh
                    = constructed c)
      /\ (exists c, Indexed.loading_cache_ctor_no_reload Key Tp max_size expiry
                    = constructed c)).
Proof.
  split.
  - intros Hexp. apply Z.eqb_neq in Hexp.
    unfold Anchored.loading_cache_ctor, Indexed.loading_cache_ctor,
      Indexed.loading_cache_ctor_no_reload, Anchored.caching_enabled,
      Indexed.caching_enabled.
    simpl. rewrite Hexp. simpl.
    destruct (Z.eqb_spec refresh 0) as [Hr|Hr];
      destruct (Z.eqb_spec max_size 0) as [Hm|Hm]; simpl;
      repeat split; intros; try discriminate; try tauto; try lia.
  - intros ->.
    unfold Anchored.loading_cache_ctor, Indexed.loading_cache_ctor,
      Indexed.loading_cache_ctor_no_reload. simpl.
    repeat split; eexists; reflexivity.
Qed.

Lemma constructor_rejects_invalid_configuration_witness :
  (Anchored.loading_cache_ctor Scenario.Key Scenario.Tp 0 1000 500
   = configuration_exception <-> 0 = 0 \/ 500 = 0)
  /\ (exists c, Indexed.loading_cache_ctor_no_reload Scenario.Key Scenario.Tp
                  0 0 = constructed c).
Proof.
  destruct (constructor_rejects_invalid_configuration
              Scenario.Key Scenario.Tp 0 1000 500) as [Hon _].
  destruct (constructor_rejects_invalid_configuration
              Scenario.Key Scenario.Tp 0 0 0) as [_ Hoff].
  split.
  - apply Hon. discriminate.
  - apply Hoff. reflexivity.
Defined.

(** C9.  A cache constructed with a zero expiry hands every [get] to the
    loader and stores nothing: whatever calls of [get] were made, the cache
    is the one the constructor returned, it holds no entry, and the next
    [get] goes to the loader again. *)
Theorem disabled_cache_loads_on_every_get
        (Key Tp : Type) (EqualPred : Key -> Key -> bool)
        (max_size expiry refresh : Z) :
  expiry = 0 ->
  (exists c0,
      Anchored.loading_cache_ctor Key Tp max_size expiry refresh
      = constructed c0
      /\ Anchored._lru_list c0 = []
      /\ forall k, Anchored.get c0 k = Anchored.load_directly)
  /\ (exists c0,
         Indexed.loading_cache_ctor Key Tp max_size expiry refresh
         = constructed c0
         /\ forall calls : list (Key * Z),
             let c := fold_left
                        (fun c call =>
                           Indexed.after_get EqualPred c (fst call) (snd call))
                        calls c0 in
             c = c0
             /\ Indexed.entries_count c = 0
             /\ forall k now,
                 Indexed.get EqualPred c k now = Indexed.load_directly).
Proof.
  intros ->. split.
  - eexists. split; [reflexivity|]. split; reflexivity.
  - eexists. split; [reflexivity|].
    intros calls.
    assert (Hfix : forall c : Indexed.loading_cache Key Tp,
               Indexed._expiry c = 0 ->
               fold_left
                 (fun c call =>
                    Indexed.after_get EqualPred c (fst call) (snd call))
                 calls c = c).
    { induction calls as [|[k now] calls IH]; intros c Hc; simpl.
      - reflexivity.
      - unfold Indexed.after_get at 2, Indexed.get, Indexed.caching_enabled.
        rewrite Hc. simpl. apply IH, Hc. }
    simpl. rewrite Hfix by reflexivity.
    split; [reflexivity|]. split; reflexivity.
Qed.

Lemma disabled_cache_loads_on_every_get_witness :
  exists c0,
    Indexed.loading_cache_ctor Scenario.Key Scenario.Tp 4 0 500
    = constructed c0
    /\ forall calls : list (Scenario.Key * Z),
        let c := fold_left
                   (fun c call =>
                      Indexed.after_get Scenario.EqualPred c (fst call)
                        (snd call))
                   calls c0 in
        c = c0
        /\ Indexed.entries_count c = 0
        /\ forall k now,
            Indexed.get Scenario.EqualPred c k now = Indexed.load_directly.
Proof.
  exact (proj2 (disabled_cache_loads_on_every_get
                  Scenario.Key Scenario.Tp Scenario.EqualPred 4 0 500
                  eq_refl)).
Defined.

(** C10.  In the revision with [get_ptr(k, load)], the call asserts that
    caching is enabled: with a zero expiry [get_ptr] stops at the assertion
    where [get] hands the key to the loader, and with a non-zero expiry the
    assertion holds. *)
Theorem get_ptr_asserts_caching_enabled
        (Key Tp : Type) (EqualPred : Key -> Key -> bool)
        (c : Indexed.loading_cache Key Tp) (k : Key) (now : Z) :
  (Indexed._expiry c = 0 ->
   Indexed.get_ptr EqualPred c k now = Indexed.assertion_failed
   /\ Indexed.get EqualPred c k now = Indexed.load_directly)
  /\ (Indexed._expiry c <> 0 ->
      Indexed.get_ptr EqualPred c k now <> Indexed.assertion_failed
      /\ Indexed.get EqualPred c k now
         = Indexed.through_get_ptr (Indexed.get_ptr EqualPred c k now)).
Proof.
  unfold Indexed.get, Indexed.get_ptr, Indexed.caching_enabled. split.
  - intros ->. split; reflexivity.
  - intros H. apply Z.eqb_neq in H. rewrite H. simpl. split; [|reflexivity].
    destruct (extract _ _) as [[e rest]|]; discriminate.
Qed.

(** * The timer tick *)

(** C6.  An entry that is in the LRU list when the expiry sweep starts is
    evicted when [now - last_read > expiry] or, where the cache reloads
    ([src/utils/loading_cache.hh] always, [part_001] when [ReloadEnabled]),
    when [now - loaded > expiry]; an entry that meets neither condition is
    still in the list after the sweep. *)
Theorem drop_expired_evicts_exactly_the_expired (Key Tp : Type) :
  (forall (c : Anchored.loading_cache Key Tp) (now : Z) e,
      In e (Anchored._lru_list c) ->
      let v := Anchored.timestamped_value e in
      let is_expired := Anchored._expiry c < now - Anchored._last_read v
                        \/ Anchored._expiry c < now - Anchored._loaded v in
      (is_expired ->
       ~ In e (Anchored._lru_list (Anchored.drop_expired c now)))
      /\ (~ is_expired ->
          In e (Anchored._lru_list (Anchored.drop_expired c now))))
  /\ (forall (c : Indexed.loading_cache Key Tp) (now : Z) v,
         In v (Indexed._lru_list c) ->
         let is_expired := Indexed._expiry c < now - Indexed._last_read v
                           \/ (Indexed.ReloadEnabled c = true
                               /\ Indexed._expiry c
                                  < now - Indexed._loaded v) in
         (is_expired ->
          ~ In v (Indexed._lru_list (Indexed.drop_expired c now)))
         /\ (~ is_expired ->
             In v (Indexed._lru_list (Indexed.drop_expired c now)))).
Proof.
  split.
  - intros c now e Hin v is_expired. subst v is_expired.
    rewrite anchored_drop_expired_kept, <- anchored_expired_iff.
    split.
    + intros Hexp Hkept. apply filter_In in Hkept as [_ Hkept].
      rewrite Hexp in Hkept. discriminate.
    + intros Hnot. apply filter_In. split; [exact Hin|].
      destruct (Anchored.expired c now e); [contradiction Hnot|]; reflexivity.
  - intros c now v Hin is_expired. subst is_expired.
    rewrite indexed_drop_expired_kept, <- indexed_expired_iff.
    split.
    + intros Hexp Hkept. apply filter_In in Hkept as [_ Hkept].
      rewrite Hexp in Hkept. discriminate.
    + intros Hnot. apply filter_In. split; [exact Hin|].
      destruct (Indexed.expired c now v); [contradiction Hnot|]; reflexivity.
Qed.

Lemma get_ptr_asserts_caching_enabled_witness :
  (Indexed.get_ptr Scenario.EqualPred Scenario.indexed_disabled Scenario.a 0
   = Indexed.assertion_failed
   /\ Indexed.get Scenario.EqualPred Scenario.indexed_disabled Scenario.a 0
      = Indexed.load_directly)
  /\ Indexed.get_ptr Scenario.EqualPred Scenario.indexed_empty Scenario.a 0
     <> Indexed.assertion_failed.
Proof.
  split.
  - apply (proj1 (get_ptr_asserts_caching_enabled
                    Scenario.Key Scenario.Tp Scenario.EqualPred
                    Scenario.indexed_disabled Scenario.a 0)).
    reflexivity.
  - apply (proj2 (get_ptr_asserts_caching_enabled
                    Scenario.Key Scenario.Tp Scenario.EqualPred
                    Scenario.indexed_empty Scenario.a 0)).
    discriminate.
Defined.

Lemma drop_expired_evicts_exactly_the_expired_witness :
  ~ In Scenario.entry_a
      (Anchored._lru_list (Anchored.drop_expired Scenario.anchored_a 1001))
  /\ In Scenario.node_a
        (Indexed._lru_list (Indexed.drop_expired Scenario.indexed_a 1000)).
Proof.
  destruct (drop_expired_evicts_exactly_the_expired
              Scenario.Key Scenario.Tp) as [HA HI].
  split.
  - apply (HA Scenario.anchored_a 1001 Scenario.entry_a).
    + left. reflexivity.
    + left. reflexivity.
  - apply (HI Scenario.indexed_a 1000 Scenario.node_a).
    + left. reflexivity.
    + simpl. intros [H|[_ H]]; discriminate H.
Defined.

(** C7, as the code has it.  In [part_001] the refresh step of
    [on_timer_with_reload] hands to [reload] exactly the entries of the
    index whose deadline [loaded + refresh] is before [timer_start_tp], the
    time point read before the tick's work.  In
    [src/utils/loading_cache.hh], which keeps no such time point, [on_timer]
    hands to [reload] exactly the entries whose deadline is before the
    clock value read when the entry is examined.  The deadline is a signed
    64-bit sum of milliseconds: it is the plain sum for every entry whose
    plain sum is within that range. *)
Theorem refresh_step_reloads_exactly_the_stale (Key Tp : Type) :
  (forall (c c' : Indexed.loading_cache Key Tp) (timer_start_tp now : Z)
          (reloaded : list (Indexed.timestamped_val Key Tp)),
      Indexed.on_timer_with_reload c timer_start_tp now = Some (c', reloaded) ->
      Indexed.on_timer c now = Some c'
      /\ (forall v,
             In v reloaded <->
             In v (Indexed._set c')
             /\ time_add (Indexed._loaded v) (Indexed._refresh c)
                < timer_start_tp)
      /\ (forall v,
             int64_min <= Indexed._loaded v + Indexed._refresh c
             <= int64_max ->
             (In v reloaded <->
              In v (Indexed._set c')
              /\ Indexed._loaded v + Indexed._refresh c < timer_start_tp)))
  /\ (forall (c c' : Anchored.loading_cache Key Tp) (now : Z)
             (examined_at : nat -> Z) (keys : list Key),
         Anchored.on_timer c now examined_at = Some (c', keys) ->
         exists reloaded,
           keys = map Anchored.reload reloaded
           /\ (forall e,
                  In e reloaded <->
                  exists i,
                    nth_error (Anchored._lru_list c') i = Some e
                    /\ time_add
                         (Anchored._loaded (Anchored.timestamped_value e))
                         (Anchored._refresh c)
                       < examined_at i)
           /\ (forall e,
                  int64_min
                  <= Anchored._loaded (Anchored.timestamped_value e)
                     + Anchored._refresh c
                  <= int64_max ->
                  (In e reloaded <->
                   exists i,
                     nth_error (Anchored._lru_list c') i = Some e
                     /\ Anchored._loaded (Anchored.timestamped_value e)
                        + Anchored._refresh c
                        < examined_at i))).
Proof.
  split.
  - intros c c' timer_start_tp now reloaded.
    unfold Indexed.on_timer_with_reload.
    destruct (Indexed.on_timer c now) as [c1|] eqn:E; [|discriminate].
    intros [= <- <-]. split; [reflexivity|].
    assert (Hr : Indexed._refresh c1 = Indexed._refresh c).
    { unfold Indexed.on_timer, Indexed.shrink, Indexed.drop_expired in E.
      destruct (remove_and_dispose_if _ _ _ _) as [l cs].
      destruct (shrink_from_back _ _ _ _) as [[rl cs']|]; [|discriminate].
      injection E as <-. reflexivity. }
    assert (Hsel : forall v,
               In v (filter (fun v => time_add (Indexed._loaded v)
                                        (Indexed._refresh c1)
                                      <? timer_start_tp) (Indexed._set c1)) <->
               In v (Indexed._set c1)
               /\ time_add (Indexed._loaded v) (Indexed._refresh c)
                  < timer_start_tp).
    { intros v. rewrite filter_In, Z.ltb_lt, Hr. reflexivity. }
    split; [exact Hsel|].
    intros v Hfit. rewrite Hsel, (time_add_in_range _ _ Hfit). reflexivity.
  - intros c c' now examined_at keys. unfold Anchored.on_timer.
    destruct (Anchored.shrink _) as [c1|] eqn:E; [|discriminate].
    intros [= <- <-].
    assert (Hr : Anchored._refresh c1 = Anchored._refresh c).
    { unfold Anchored.shrink, Anchored.drop_expired in E.
      destruct (remove_and_dispose_if _ _ _ _) as [l cs].
      destruct (shrink_from_back _ _ _ _) as [[rl cs']|]; [|discriminate].
      injection E as <-. reflexivity. }
    eexists. split; [reflexivity|]. split.
    + intros e. rewrite anchored_to_reload_In, Hr. reflexivity.
    + intros e Hfit.
      rewrite anchored_to_reload_In, Hr, (time_add_in_range _ _ Hfit).
      reflexivity.
Qed.

Lemma refresh_step_reloads_exactly_the_stale_witness :
  (Indexed.on_timer Scenario.indexed_a 502 = Some Scenario.indexed_a
   /\ (forall v,
          In v [Scenario.node_a] <->
          In v (Indexed._set Scenario.indexed_a)
          /\ time_add (Indexed._loaded v)
               (Indexed._refresh Scenario.indexed_a) < 501)
   /\ (forall v,
          int64_min
          <= Indexed._loaded v + Indexed._refresh Scenario.indexed_a
          <= int64_max ->
          (In v [Scenario.node_a] <->
           In v (Indexed._set Scenario.indexed_a)
           /\ Indexed._loaded v + Indexed._refresh Scenario.indexed_a
              < 501)))
  /\ exists reloaded,
      [Scenario.a] = map Anchored.reload reloaded
      /\ (forall e,
             In e reloaded <->
             exists i,
               nth_error (Anchored._lru_list Scenario.anchored_a) i = Some e
               /\ time_add (Anchored._loaded (Anchored.timestamped_value e))
                    (Anchored._refresh Scenario.anchored_a)
                  < (fun _ : nat => 501) i)
      /\ (forall e,
             int64_min
             <= Anchored._loaded (Anchored.timestamped_value e)
                + Anchored._refresh Scenario.anchored_a
             <= int64_max ->
             (In e reloaded <->
              exists i,
                nth_error (Anchored._lru_list Scenario.anchored_a) i = Some e
                /\ Anchored._loaded (Anchored.timestamped_value e)
                   + Anchored._refresh Scenario.anchored_a
                   < (fun _ : nat => 501) i)).
Proof.
  destruct (refresh_step_reloads_exactly_the_stale
              Scenario.Key Scenario.Tp) as [HI HA].
  split.
  - apply (HI Scenario.indexed_a Scenario.indexed_a 501 502 [Scenario.node_a]).
    reflexivity.
  - apply (HA Scenario.anchored_a Scenario.anchored_a 500
              (fun _ : nat => 501) [Scenario.a]).
    reflexivity.
Defined.

(** C7 as stated fails in [src/utils/loading_cache.hh]: an entry loaded at
    time 0 with a refresh period of 500 is not due when the tick starts at
    time 500, yet it is reloaded when the clock reads 501 at the moment the
    entry is examined. *)
Lemma refresh_step_compares_with_the_clock_at_examination :
  ~ (forall (c c' : Anchored.loading_cache Scenario.Key Scenario.Tp)
            (timer_start : Z) (examined_at : nat -> Z)
            (keys : list Scenario.Key),
        Anchored.on_timer c timer_start examined_at = Some (c', keys) ->
        keys = map Anchored.reload
                 (filter (fun e =>
                            Anchored._loaded (Anchored.timestamped_value e)
                            + Anchored._refresh c <? timer_start)
                    (Anchored._lru_list c'))).
Proof.
  intros H.
  specialize (H Scenario.anchored_a Scenario.anchored_a 500
                (fun _ => 501) [Scenario.a] eq_refl).
  discriminate H.
Qed.

(** The deadline wraps around: with a refresh period of
    [milliseconds::max()], which the constructor accepts, an entry loaded
    at time 1 has its deadline at the far past and is reloaded by the very
    next tick, in both revisions. *)
Lemma refresh_deadline_wraps_around :
  Indexed.loading_cache_ctor Scenario.Key Scenario.Tp 4 1000 int64_max
  = constructed
      {| Indexed.ReloadEnabled := true; Indexed._lru_list := [];
         Indexed._current_size := 0; Indexed._max_size := 4;
         Indexed._expiry := 1000; Indexed._refresh := int64_max;
         Indexed._timer_period := Some 1000; Indexed.allocations := 0 |}
  /\ Indexed.on_timer_with_reload Scenario.indexed_max_refresh 2 2
     = Some (Scenario.indexed_max_refresh, [Scenario.node_late])
  /\ Anchored.on_timer Scenario.anchored_max_refresh 2 (fun _ => 2)
     = Some (Scenario.anchored_max_refresh, [Scenario.a]).
Proof. repeat split. Qed.

(** * Reassignment and reload *)

(** C8.  Reassigning the value of a resident entry ([operator=]) stores the
    new value, sets [loaded] to the clock reading, and takes the old size
    out of the cache total and puts the size of the new value in; the
    entry keeps its [last_read] and its place in the LRU list, and every
    other entry is as before.  In [src/utils/loading_cache.hh] the entry is
    the one [set_find] returns for the key, in [part_001] the one the
    reference points to. *)
Theorem reassign_updates_value_loaded_and_size
        (Key Tp : Type) (EqualPred : Key -> Key -> bool)
        (EntrySize : Tp -> Z) (new_val : Tp) (now : Z) :
  (forall (c : Anchored.loading_cache Key Tp) l1 e l2,
      Anchored._lru_list c = l1 ++ e :: l2 ->
      Anchored.set_find EqualPred c (Anchored.key e) = Some e ->
      forallb (fun x => negb (Anchored.has_key EqualPred (Anchored.key e) x))
        l1 = true ->
      let c' := Anchored.reassign EqualPred EntrySize c (Anchored.key e) e
                  new_val now in
      Anchored._lru_list c'
      = l1 ++ {| Anchored.key := Anchored.key e;
                 Anchored.timestamped_value :=
                   {| Anchored._value := new_val;
                      Anchored._loaded := now;
                      Anchored._last_read :=
                        Anchored._last_read (Anchored.timestamped_value e);
                      Anchored._size := EntrySize new_val |} |} :: l2
      /\ Anchored._current_size c'
         = wrap (wrap (Anchored._current_size c - Anchored.entry_size e)
                 + EntrySize new_val))
  /\ (forall (c : Indexed.loading_cache Key Tp) l1 v l2,
         Indexed._lru_list c = l1 ++ v :: l2 ->
         forallb (fun x => negb (Indexed.refers_to (Indexed.addr v) x)) l1
         = true ->
         let c' := Indexed.reassign EntrySize c (Indexed.addr v) v new_val
                     now in
         Indexed._lru_list c'
         = l1 ++ {| Indexed.addr := Indexed.addr v;
                    Indexed.key := Indexed.key v;
                    Indexed._value := new_val;
                    Indexed._loaded := now;
                    Indexed._last_read := Indexed._last_read v;
                    Indexed._size := EntrySize new_val |} :: l2
         /\ Indexed._current_size c'
            = wrap (wrap (Indexed._current_size c - Indexed._size v)
                    + EntrySize new_val)).
Proof.
  split.
  - intros c l1 e l2 Hl Hfind Hl1 c'. subst c'. simpl. split; [|reflexivity].
    unfold Anchored.set_find in Hfind. rewrite Hl in *.
    assert (He : Anchored.has_key EqualPred (Anchored.key e) e = true).
    { apply (find_some _ _ Hfind). }
    rewrite (update_first_split _ _ _ _ _ Hl1 He). reflexivity.
  - intros c l1 v l2 Hl Hl1 c'. subst c'. simpl. split; [|reflexivity].
    rewrite Hl.
    assert (Hv : Indexed.refers_to (Indexed.addr v) v = true).
    { apply Nat.eqb_refl. }
    rewrite (update_first_split _ _ _ _ _ Hl1 Hv). reflexivity.
Qed.

Lemma reassign_updates_value_loaded_and_size_witness :
  (let c' := Anchored.reassign Scenario.EqualPred Scenario.EntrySize
               Scenario.anchored_ba (Anchored.key Scenario.entry_a)
               Scenario.entry_a Scenario.hello 600 in
   Anchored._lru_list c'
   = [Scenario.entry_b]
       ++ {| Anchored.key := Anchored.key Scenario.entry_a;
             Anchored.timestamped_value :=
               {| Anchored._value := Scenario.hello;
                  Anchored._loaded := 600;
                  Anchored._last_read :=
                    Anchored._last_read
                      (Anchored.timestamped_value Scenario.entry_a);
                  Anchored._size := Scenario.EntrySize Scenario.hello |} |}
       :: []
   /\ Anchored._current_size c'
      = wrap (wrap (Anchored._current_size Scenario.anchored_ba
                    - Anchored.entry_size Scenario.entry_a)
              + Scenario.EntrySize Scenario.hello))
  /\ (let c' := Indexed.reassign Scenario.EntrySize Scenario.indexed_ba
                  (Indexed.addr Scenario.node_a) Scenario.node_a
                  Scenario.hello 600 in
      Indexed._lru_list c'
      = [Scenario.node_b]
          ++ {| Indexed.addr := Indexed.addr Scenario.node_a;
                Indexed.key := Indexed.key Scenario.node_a;
                Indexed._value := Scenario.hello;
                Indexed._loaded := 600;
                Indexed._last_read := Indexed._last_read Scenario.node_a;
                Indexed._size := Scenario.EntrySize Scenario.hello |} :: []
      /\ Indexed._current_size c'
         = wrap (wrap (Indexed._current_size Scenario.indexed_ba
                       - Indexed._size Scenario.node_a)
                 + Scenario.EntrySize Scenario.hello)).
Proof.
  destruct (reassign_updates_value_loaded_and_size
              Scenario.Key Scenario.Tp Scenario.EqualPred Scenario.EntrySize
              Scenario.hello 600) as [HA HI].
  split.
  - apply (HA Scenario.anchored_ba [Scenario.entry_b] Scenario.entry_a []);
      reflexivity.
  - apply (HI Scenario.indexed_ba [Scenario.node_b] Scenario.node_a []);
      reflexivity.
Defined.

(** C4.  When the loader future of a background reload of a resident entry
    has failed, the continuation of [reload] returns a resolved future and
    the cache it leaves is the cache it found: the entry is still in its
    place, with its value, [loaded], [last_read] and size. *)
Theorem failed_reload_is_swallowed_and_keeps_the_entry
        (Key Tp : Type) (EqualPred : Key -> Key -> bool)
        (EntrySize : Tp -> Z) (now : Z) :
  (forall (c : Anchored.loading_cache Key Tp) e,
      In e (Anchored._lru_list c) ->
      Anchored.reload_cont EqualPred EntrySize c (Anchored.reload e)
        load_failed now
      = (c, resolved))
  /\ (forall (c : Indexed.loading_cache Key Tp) v,
         In v (Indexed._lru_list c) ->
         Indexed.reload_cont EntrySize c (snd (Indexed.reload v))
           load_failed now
         = Some (c, resolved)).
Proof.
  split.
  - intros c e _. unfold Anchored.reload_cont.
    destruct (Anchored.set_find _ _ _); reflexivity.
  - intros c v Hin. unfold Indexed.reload_cont. simpl.
    destruct (indexed_find_by_address _ _ Hin) as [old ->]. reflexivity.
Qed.

Lemma failed_reload_is_swallowed_and_keeps_the_entry_witness :
  Anchored.reload_cont Scenario.EqualPred Scenario.EntrySize
    Scenario.anchored_ba (Anchored.reload Scenario.entry_a) load_failed 600
  = (Scenario.anchored_ba, resolved)
  /\ Indexed.reload_cont Scenario.EntrySize Scenario.indexed_ba
       (snd (Indexed.reload Scenario.node_a)) load_failed 600
     = Some (Scenario.indexed_ba, resolved).
Proof.
  destruct (failed_reload_is_swallowed_and_keeps_the_entry
              Scenario.Key Scenario.Tp Scenario.EqualPred Scenario.EntrySize
              600) as [HA HI].
  split.
  - apply (HA Scenario.anchored_ba Scenario.entry_a).
    right. left. reflexivity.
  - apply (HI Scenario.indexed_ba Scenario.node_a).
    right. left. reflexivity.
Defined.

(** * Size accounting *)

(** The accounting invariant.  After every sequence of steps of a
    constructed cache (the continuation of [get] or [get_ptr], a hit,
    [erase], [remove_if], [at], a timer tick, the continuation of a reload
    with its reassignment, the destructor) [_current_size] is the sum of the
    cached sizes of the resident entries, taken in [size_t]: it is the plain
    sum whenever that fits [size_t].  In [src/utils/loading_cache.hh] every
    sequence runs to its end; in [part_001] the statement is about the
    states reached by sequences that hit no assertion and no dead
    reference. *)
Theorem current_size_is_the_sum_of_resident_sizes
        (Key Tp : Type) (EqualPred : Key -> Key -> bool)
        (EntrySize : Tp -> Z) (max_size expiry refresh : Z) :
  (forall c0 ss,
      Anchored.loading_cache_ctor Key Tp max_size expiry refresh
      = constructed c0 ->
      0 <= max_size ->
      exists c,
        Anchored.run EqualPred EntrySize c0 ss = Some c
        /\ Anchored._current_size c = wrap (Anchored.resident_size c)
        /\ (0 <= Anchored.resident_size c < size_t_modulus ->
            Anchored._current_size c = Anchored.resident_size c))
  /\ (forall c0 ss c,
         Indexed.loading_cache_ctor Key Tp max_size expiry refresh
         = constructed c0
         \/ Indexed.loading_cache_ctor_no_reload Key Tp max_size expiry
            = constructed c0 ->
         Indexed.run EqualPred EntrySize c0 ss = Some c ->
         Indexed._current_size c = wrap (Indexed.resident_size c)
         /\ (0 <= Indexed.resident_size c < size_t_modulus ->
             Indexed._current_size c = Indexed.resident_size c)).
Proof.
  split.
  - intros c0 ss Hc0 Hmax.
    destruct (anchored_ctor_empty _ _ _ _ Hc0) as (Hl & Hcs & Hm).
    destruct (anchored_run_accounted EqualPred EntrySize c0 ss)
      as (c & Hrun & H).
    + rewrite Hm. exact Hmax.
    + unfold Anchored.resident_size. rewrite Hl, Hcs. reflexivity.
    + exists c. split; [exact Hrun|]. split; [exact H|].
      intros Hfit. rewrite H. apply wrap_small, Hfit.
  - intros c0 ss c Hc0 Hrun.
    destruct (indexed_ctor_empty _ _ _ _ Hc0) as (Hl & Hcs).
    assert (H : Indexed._current_size c = wrap (Indexed.resident_size c)).
    { apply (indexed_run_accounted EqualPred EntrySize c0 ss c); [|exact Hrun].
      unfold Indexed.resident_size, Indexed._set. rewrite Hl, Hcs.
      reflexivity. }
    split; [exact H|].
    intros Hfit. rewrite H. apply wrap_small, Hfit.
Qed.

Lemma current_size_is_the_sum_of_resident_sizes_witness :
  (exists c,
      Anchored.run Scenario.EqualPred Scenario.EntrySize
        Scenario.anchored_empty Scenario.anchored_steps = Some c
      /\ Anchored._current_size c = wrap (Anchored.resident_size c)
      /\ (0 <= Anchored.resident_size c < size_t_modulus ->
          Anchored._current_size c = Anchored.resident_size c))
  /\ (exists c,
         Indexed.run Scenario.EqualPred Scenario.EntrySize
           Scenario.indexed_empty Scenario.indexed_steps = Some c
         /\ Indexed._current_size c = wrap (Indexed.resident_size c)
         /\ (0 <= Indexed.resident_size c < size_t_modulus ->
             Indexed._current_size c = Indexed.resident_size c)).
Proof.
  destruct (current_size_is_the_sum_of_resident_sizes
              Scenario.Key Scenario.Tp Scenario.EqualPred Scenario.EntrySize
              4 1000 500) as [HA HI].
  split.
  - apply (HA Scenario.anchored_empty Scenario.anchored_steps).
    + reflexivity.
    + discriminate.
  - eexists. split.
    + reflexivity.
    + apply (HI Scenario.indexed_empty Scenario.indexed_steps).
      * left. reflexivity.
      * reflexivity.
Defined.

(** * Where [part_001] departs from [src/utils/loading_cache.hh] *)

(** C2 in [part_001].  The constructed cache loads ["a"] and ["b"], and
    [erase("a")] destroys the entry of ["a"]: the total is 1, the size of
    ["b"].  A reload of ["a"] that was started before the erase then
    resumes with the loaded value ["hello"]: its continuation assigns
    through the reference to the destroyed entry, and the sequence has no
    defined state in which the total could be compared with the resident
    sizes. *)
Theorem indexed_run_resumes_reload_of_erased_entry :
  Indexed.loading_cache_ctor Scenario.Key Scenario.Tp 4 1000 500
  = constructed Scenario.indexed_empty
  /\ Indexed.run Scenario.EqualPred Scenario.EntrySize Scenario.indexed_empty
       [ Indexed.get_ptr_resumes Scenario.a Scenario.a 0 0;
         Indexed.get_ptr_resumes Scenario.b Scenario.b 100 100 ]
     = Some Scenario.indexed_ba
  /\ Indexed.reload Scenario.node_a = (Scenario.a, 0%nat)
  /\ In Scenario.node_a (Indexed._lru_list Scenario.indexed_ba)
  /\ Indexed.run Scenario.EqualPred Scenario.EntrySize Scenario.indexed_empty
       [ Indexed.get_ptr_resumes Scenario.a Scenario.a 0 0;
         Indexed.get_ptr_resumes Scenario.b Scenario.b 100 100;
         Indexed.erase_called Scenario.a ]
     = Some (Indexed.with_entries Scenario.indexed_ba [Scenario.node_b] 1)
  /\ Indexed.run Scenario.EqualPred Scenario.EntrySize Scenario.indexed_empty
       [ Indexed.get_ptr_resumes Scenario.a Scenario.a 0 0;
         Indexed.get_ptr_resumes Scenario.b Scenario.b 100 100;
         Indexed.erase_called Scenario.a;
         Indexed.reload_resumes 0 (loaded Scenario.hello) 600 ]
     = None.
Proof.
  split; [reflexivity|]. split; [reflexivity|]. split; [reflexivity|].
  split; [right; left; reflexivity|]. split; reflexivity.
Qed.


(** C1 in [part_001].  With [max_size = 4] and the value ["a"] resident,
    [get_ptr("hello")] misses, and its continuation installs the loaded
    value of size 5 and returns it: there is no size check.  The cache then
    holds two entries and its total is 6. *)
Theorem indexed_get_ptr_installs_oversize_value :
  Indexed.get_ptr Scenario.EqualPred Scenario.indexed_a Scenario.hello 1
  = Indexed.get_or_load
  /\ Indexed._max_size Scenario.indexed_a
     < Scenario.EntrySize Scenario.hello
  /\ Indexed.get_ptr_cont Scenario.EqualPred Scenario.EntrySize
       Scenario.indexed_a Scenario.hello Scenario.hello 1 1
     = ({| Indexed.ReloadEnabled := true;
           Indexed._lru_list :=
             [ {| Indexed.addr := 1; Indexed.key := Scenario.hello;
                  Indexed._value := Scenario.hello; Indexed._loaded := 1;
                  Indexed._last_read := 1; Indexed._size := 5 |};
               Scenario.node_a ];
           Indexed._current_size := 6; Indexed._max_size := 4;
           Indexed._expiry := 1000; Indexed._refresh := 500;
           Indexed._timer_period := Some 500; Indexed.allocations := 2 |},
        Scenario.hello).
Proof. repeat split. Qed.

(** C3 in [part_001].  [reload] keeps the reference to the node of ["a"].
    Once [erase("a")] has destroyed the node, no entry answers to the key,
    and the continuation of [reload] still goes through the reference,
    whether the loader succeeded or failed: it looks nothing up. *)
Theorem indexed_reload_resumes_through_dead_reference :
  Indexed.reload Scenario.node_a = (Scenario.a, 0%nat)
  /\ In Scenario.node_a (Indexed._lru_list Scenario.indexed_ba)
  /\ let evicted := fst (Indexed.erase Scenario.EqualPred Scenario.indexed_ba
                           Scenario.a) in
     Indexed._lru_list evicted = [Scenario.node_b]
     /\ Indexed.set_find Scenario.EqualPred evicted Scenario.a = None
     /\ Indexed.reload_cont Scenario.EntrySize evicted 0
          (loaded Scenario.hello) 600 = None
     /\ Indexed.reload_cont Scenario.EntrySize evicted 0 load_failed 600
        = None.
Proof.
  split; [reflexivity|]. split; [right; left; reflexivity|].
  repeat split.
Qed.

(** * The same two paths in [src/utils/loading_cache.hh] *)

Lemma anchored_get_rejects_oversize_value_witness :
  Anchored.get_cont Scenario.EqualPred Scenario.anchored_a Scenario.hello
    (Anchored.timestamped_val_ctor Scenario.EntrySize Scenario.hello 1) 1
  = (Scenario.anchored_a, Anchored.entry_is_too_big).
Proof.
  apply (anchored_get_rejects_oversize_value Scenario.EqualPred
           Scenario.EntrySize Scenario.anchored_a Scenario.hello
           Scenario.hello 1 1); reflexivity.
Defined.

Lemma anchored_reload_drops_result_of_evicted_entry_witness :
  Anchored.reload_cont Scenario.EqualPred Scenario.EntrySize
    (Anchored.drop_expired Scenario.anchored_a 1001) Scenario.a
    (loaded Scenario.hello) 1001
  = (Anchored.drop_expired Scenario.anchored_a 1001, resolved).
Proof.
  apply (anchored_reload_drops_result_of_evicted_entry Scenario.EqualPred
           Scenario.EntrySize (Anchored.drop_expired Scenario.anchored_a 1001)
           Scenario.a (loaded Scenario.hello) 1001).
  reflexivity.
Defined.

(** * Beyond the accounting: eviction, lookup and the timer tick *)

(** ** The shrink loop *)
Section ShrinkFacts.
Context {A : Type}.
Variable sz : A -> Z.

Lemma shrink_from_back_within_budget (max : Z) (rl : list A) (cs : Z) :
  cs <= max -> shrink_from_back sz max rl cs = Some (rl, cs).
Proof.
  intros H. apply Z.ltb_ge in H. destruct rl; simpl; rewrite H; reflexivity.
Qed.

Lemma shrink_from_back_dropped (max : Z) (rl rl' : list A) (cs cs' : Z) :
  shrink_from_back sz max rl cs = Some (rl', cs') ->
  exists dropped, rl = dropped ++ rl'.
Proof.
  revert cs. induction rl as [|x rl IH]; intros cs; simpl.
  - destruct (max <? cs); [discriminate|]. intros [= <- <-]. exists []. auto.
  - destruct (max <? cs).
    + intros H. destruct (IH _ H) as [dropped ->].
      exists (x :: dropped). reflexivity.
    + intros [= <- <-]. exists []. reflexivity.
Qed.

Lemma not_own_proper_suffix (d : list A) (e : A) (l : list A) :
  l <> d ++ e :: l.
Proof.
  intros H. apply (f_equal (@length A)) in H.
  rewrite length_app in H. simpl in H. lia.
Qed.

(** The node dropped last was in the way: with it the total was over
    [max]. *)
Lemma shrink_from_back_needed (max : Z) (rl rl' : list A) (cs cs' : Z)
      (d : list A) (e : A) :
  cs = wrap (sum_sizes sz rl) ->
  shrink_from_back sz max rl cs = Some (rl', cs') ->
  rl = d ++ e :: rl' ->
  max < wrap (sz e + sum_sizes sz rl').
Proof.
  revert cs d. induction rl as [|x rl IH]; intros cs d Hcs; simpl.
  - intros _ H. destruct d; discriminate H.
  - destruct (max <? cs) eqn:E.
    + intros Hrun Hsplit. destruct d as [|y d]; simpl in Hsplit.
      * injection Hsplit as <- <-. apply Z.ltb_lt in E.
        simpl in Hcs. rewrite <- Hcs. exact E.
      * injection Hsplit as <- ->.
        apply (IH (size_sub cs (sz x)) d); [|exact Hrun|reflexivity].
        simpl in Hcs. rewrite (size_sub_accounted _ _ _ Hcs).
        f_equal. lia.
    + intros [= <- <-] Hsplit. exfalso.
      apply (not_own_proper_suffix d e (x :: rl) Hsplit).
Qed.
End ShrinkFacts.

Lemma anchored_with_entries_same {Key Tp : Type}
      (c : Anchored.loading_cache Key Tp) :
  Anchored.with_entries c (Anchored._lru_list c) (Anchored._current_size c) = c.
Proof. destruct c. reflexivity. Qed.

Lemma indexed_with_entries_same {Key Tp : Type}
      (c : Indexed.loading_cache Key Tp) :
  Indexed.with_entries c (Indexed._lru_list c) (Indexed._current_size c) = c.
Proof. destruct c. reflexivity. Qed.

Lemma anchored_shrink_cuts_a_tail {Key Tp : Type}
      (c c' : Anchored.loading_cache Key Tp) :
  Anchored.shrink c = Some c' ->
  (exists evicted, Anchored._lru_list c = Anchored._lru_list c' ++ evicted)
  /\ Anchored._current_size c' <= Anchored._max_size c
  /\ (Anchored._current_size c <= Anchored._max_size c -> c' = c).
Proof.
  unfold Anchored.shrink.
  destruct (shrink_from_back _ _ _ _) as [[rl cs]|] eqn:E; [|discriminate].
  intros [= <-]. simpl. repeat split.
  - destruct (shrink_from_back_dropped _ _ _ _ _ _ E) as [dropped Hd].
    exists (rev dropped).
    rewrite <- (rev_involutive (Anchored._lru_list c)), Hd.
    apply rev_app_distr.
  - apply (shrink_from_back_bound _ _ _ _ _ _ E).
  - intros Hfit.
    rewrite (shrink_from_back_within_budget Anchored.entry_size _ _ _ Hfit)
      in E.
    injection E as <- <-. rewrite rev_involutive.
    apply anchored_with_entries_same.
Qed.

Lemma indexed_shrink_cuts_a_tail {Key Tp : Type}
      (c c' : Indexed.loading_cache Key Tp) :
  Indexed.shrink c = Some c' ->
  (exists evicted, Indexed._lru_list c = Indexed._lru_list c' ++ evicted)
  /\ Indexed._current_size c' <= Indexed._max_size c
  /\ (Indexed._current_size c <= Indexed._max_size c -> c' = c).
Proof.
  unfold Indexed.shrink.
  destruct (shrink_from_back _ _ _ _) as [[rl cs]|] eqn:E; [|discriminate].
  intros [= <-]. simpl. repeat split.
  - destruct (shrink_from_back_dropped _ _ _ _ _ _ E) as [dropped Hd].
    exists (rev dropped).
    rewrite <- (rev_involutive (Indexed._lru_list c)), Hd.
    apply rev_app_distr.
  - apply (shrink_from_back_bound _ _ _ _ _ _ E).
  - intros Hfit.
    rewrite (shrink_from_back_within_budget Indexed._size _ _ _ Hfit) in E.
    injection E as <- <-. rewrite rev_involutive.
    apply indexed_with_entries_same.
Qed.

(** [shrink] takes entries from the LRU end only, one after the other, and
    returns with the total within [_max_size]; a cache that is within its
    budget is returned as it is. *)
Theorem shrink_evicts_from_the_tail_until_within_budget (Key Tp : Type) :
  (forall c c' : Anchored.loading_cache Key Tp,
      Anchored.shrink c = Some c' ->
      (exists evicted,
          Anchored._lru_list c = Anchored._lru_list c' ++ evicted)
      /\ Anchored._current_size c' <= Anchored._max_size c
      /\ (Anchored._current_size c <= Anchored._max_size c -> c' = c))
  /\ (forall c c' : Indexed.loading_cache Key Tp,
         Indexed.shrink c = Some c' ->
         (exists evicted,
             Indexed._lru_list c = Indexed._lru_list c' ++ evicted)
         /\ Indexed._current_size c' <= Indexed._max_size c
         /\ (Indexed._current_size c <= Indexed._max_size c -> c' = c)).
Proof.
  split; intros c c' H.
  - apply anchored_shrink_cuts_a_tail, H.
  - apply indexed_shrink_cuts_a_tail, H.
Qed.

Lemma shrink_evicts_from_the_tail_until_within_budget_witness :
  ((exists evicted,
       Anchored._lru_list Scenario.anchored_over
       = [Scenario.entry_abc; Scenario.entry_b] ++ evicted)
   /\ 4 <= Anchored._max_size Scenario.anchored_over
   /\ (Anchored._current_size Scenario.anchored_over
       <= Anchored._max_size Scenario.anchored_over ->
       Anchored.with_entries Scenario.anchored_over
         [Scenario.entry_abc; Scenario.entry_b] 4
       = Scenario.anchored_over))
  /\ (exists evicted,
         Indexed._lru_list Scenario.indexed_over
         = [Scenario.node_abc; Scenario.node_b] ++ evicted).
Proof.
  destruct (shrink_evicts_from_the_tail_until_within_budget
              Scenario.Key Scenario.Tp) as [HA HI].
  split.
  - apply (HA Scenario.anchored_over
              (Anchored.with_entries Scenario.anchored_over
                 [Scenario.entry_abc; Scenario.entry_b] 4)).
    reflexivity.
  - apply (HI Scenario.indexed_over
              (Indexed.with_entries Scenario.indexed_over
                 [Scenario.node_abc; Scenario.node_b] 4)).
    reflexivity.
Defined.

(** [shrink] stops at the first moment the total fits: the entry it evicted
    last could not have stayed, for with it the total of the surviving
    entries is over [_max_size]. *)
Theorem shrink_evicts_no_more_than_needed (Key Tp : Type) :
  (forall (c c' : Anchored.loading_cache Key Tp) e rest,
      Anchored._current_size c = wrap (Anchored.resident_size c) ->
      Anchored.shrink c = Some c' ->
      Anchored._lru_list c = Anchored._lru_list c' ++ e :: rest ->
      Anchored._max_size c
      < wrap (Anchored.entry_size e + Anchored.resident_size c'))
  /\ (forall (c c' : Indexed.loading_cache Key Tp) v rest,
         Indexed._current_size c = wrap (Indexed.resident_size c) ->
         Indexed.shrink c = Some c' ->
         Indexed._lru_list c = Indexed._lru_list c' ++ v :: rest ->
         Indexed._max_size c
         < wrap (Indexed._size v + Indexed.resident_size c')).
Proof.
  split.
  - intros c c' e rest Hacc. unfold Anchored.shrink.
    destruct (shrink_from_back _ _ _ _) as [[rl cs]|] eqn:E; [|discriminate].
    intros [= <-]. simpl. intros Hsplit.
    unfold Anchored.resident_size. simpl. rewrite sum_sizes_rev.
    apply (shrink_from_back_needed Anchored.entry_size _ _ _ _ _ (rev rest) e
             (eq_trans Hacc (f_equal wrap (eq_sym (sum_sizes_rev _ _)))) E).
    rewrite Hsplit, rev_app_distr. simpl.
    rewrite rev_involutive, <- app_assoc. reflexivity.
  - intros c c' v rest Hacc. unfold Indexed.shrink.
    destruct (shrink_from_back _ _ _ _) as [[rl cs]|] eqn:E; [|discriminate].
    intros [= <-]. simpl. intros Hsplit.
    unfold Indexed.resident_size, Indexed._set. simpl. rewrite sum_sizes_rev.
    apply (shrink_from_back_needed Indexed._size _ _ _ _ _ (rev rest) v
             (eq_trans Hacc (f_equal wrap (eq_sym (sum_sizes_rev _ _)))) E).
    unfold Indexed._set. rewrite Hsplit, rev_app_distr. simpl.
    rewrite rev_involutive, <- app_assoc. reflexivity.
Qed.

Lemma shrink_evicts_no_more_than_needed_witness :
  Anchored._max_size Scenario.anchored_over
  < wrap (Anchored.entry_size Scenario.entry_a
          + Anchored.resident_size
              (Anchored.with_entries Scenario.anchored_over
                 [Scenario.entry_abc; Scenario.entry_b] 4))
  /\ Indexed._max_size Scenario.indexed_over
     < wrap (Indexed._size Scenario.node_a
             + Indexed.resident_size
                 (Indexed.with_entries Scenario.indexed_over
                    [Scenario.node_abc; Scenario.node_b] 4)).
Proof.
  destruct (shrink_evicts_no_more_than_needed Scenario.Key Scenario.Tp)
    as [HA HI].
  split.
  - apply (HA Scenario.anchored_over _ Scenario.entry_a []); reflexivity.
  - apply (HI Scenario.indexed_over _ Scenario.node_a []); reflexivity.
Defined.

(** ** The timer tick *)

Lemma indexed_drop_expired_config {Key Tp : Type}
      (c : Indexed.loading_cache Key Tp) (now : Z) :
  Indexed._max_size (Indexed.drop_expired c now) = Indexed._max_size c
  /\ Indexed._refresh (Indexed.drop_expired c now) = Indexed._refresh c.
Proof.
  unfold Indexed.drop_expired.
  destruct (remove_and_dispose_if _ _ _ _). split; reflexivity.
Qed.

Lemma indexed_shrink_config {Key Tp : Type}
      (c c' : Indexed.loading_cache Key Tp) :
  Indexed.shrink c = Some c' ->
  Indexed._max_size c' = Indexed._max_size c
  /\ Indexed._refresh c' = Indexed._refresh c.
Proof.
  unfold Indexed.shrink.
  destruct (shrink_from_back _ _ _ _) as [[rl cs]|]; [|discriminate].
  intros [= <-]. split; reflexivity.
Qed.

Lemma indexed_step_max_size {Key Tp : Type} (EqualPred : Key -> Key -> bool)
      (EntrySize : Tp -> Z) (c c' : Indexed.loading_cache Key Tp)
      (s : Indexed.step_label Key Tp) :
  Indexed.step EqualPred EntrySize c s = Some c' ->
  Indexed._max_size c' = Indexed._max_size c.
Proof.
  destruct s as [k now|k val built now|k|pred|k now|now|ts_val f now|]; simpl.
  - unfold Indexed.get_ptr. destruct (negb _); [discriminate|].
    destruct (extract _ _) as [[e rest]|]; intros [= <-]; reflexivity.
  - intros [= <-]. unfold Indexed.get_ptr_cont.
    destruct (extract _ _) as [[e rest]|]; reflexivity.
  - intros [= <-]. unfold Indexed.erase.
    destruct (remove_and_dispose_if _ _ _ _). reflexivity.
  - intros [= <-]. unfold Indexed.remove_if.
    destruct (remove_and_dispose_if _ _ _ _). reflexivity.
  - unfold Indexed.at_.
    destruct (extract _ _) as [[e rest]|]; intros [= <-]; reflexivity.
  - unfold Indexed.on_timer. intros H.
    rewrite (proj1 (indexed_shrink_config _ _ H)).
    apply indexed_drop_expired_config.
  - unfold Indexed.reload_cont.
    destruct (find _ _); [|discriminate]. simpl. intros [= <-].
    destruct f; reflexivity.
  - intros [= <-]. reflexivity.
Qed.

Lemma indexed_run_max_size {Key Tp : Type} (EqualPred : Key -> Key -> bool)
      (EntrySize : Tp -> Z) (ss : list (Indexed.step_label Key Tp))
      (c c' : Indexed.loading_cache Key Tp) :
  Indexed.run EqualPred EntrySize c ss = Some c' ->
  Indexed._max_size c' = Indexed._max_size c.
Proof.
  revert c. induction ss as [|s ss IH]; intros c; simpl.
  - intros [= <-]. reflexivity.
  - destruct (Indexed.step _ _ c s) as [c1|] eqn:E; [|discriminate].
    intros H. rewrite (IH _ H). apply (indexed_step_max_size _ _ _ _ _ E).
Qed.

(** In [part_001] the tick of a cache reached from a constructed one never
    runs [shrink] off the end of the list: a tick always completes. *)
Theorem indexed_timer_tick_always_completes
        (Key Tp : Type) (EqualPred : Key -> Key -> bool)
        (EntrySize : Tp -> Z) (max_size expiry refresh : Z)
        (c0 c : Indexed.loading_cache Key Tp)
        (ss : list (Indexed.step_label Key Tp)) (now : Z) :
  Indexed.loading_cache_ctor Key Tp max_size expiry refresh = constructed c0
  \/ Indexed.loading_cache_ctor_no_reload Key Tp max_size expiry
     = constructed c0 ->
  0 <= Indexed._max_size c0 ->
  Indexed.run EqualPred EntrySize c0 ss = Some c ->
  exists c', Indexed.on_timer c now = Some c'.
Proof.
  intros Hc0 Hmax Hrun.
  destruct (indexed_ctor_empty _ _ _ _ Hc0) as (Hl & Hcs).
  assert (Hacc : Indexed._current_size c = wrap (Indexed.resident_size c)).
  { apply (indexed_run_accounted EqualPred EntrySize c0 ss c); [|exact Hrun].
    unfold Indexed.resident_size, Indexed._set. rewrite Hl, Hcs.
    reflexivity. }
  rewrite <- (indexed_run_max_size _ _ _ _ _ Hrun) in Hmax.
  pose proof (indexed_drop_expired_accounted c now Hacc) as Hacc'.
  simpl in Hacc'.
  unfold Indexed.on_timer, Indexed.shrink.
  destruct (shrink_from_back_defined Indexed._size
              (Indexed._max_size (Indexed.drop_expired c now))
              (rev (Indexed._lru_list (Indexed.drop_expired c now)))
              (Indexed._current_size (Indexed.drop_expired c now)))
    as [[rl cs] E].
  - rewrite (proj1 (indexed_drop_expired_config c now)). exact Hmax.
  - rewrite sum_sizes_rev. exact Hacc'.
  - rewrite E. eauto.
Qed.

Lemma indexed_timer_tick_always_completes_witness :
  exists c', Indexed.on_timer Scenario.indexed_over 1150 = Some c'.
Proof.
  apply (indexed_timer_tick_always_completes
           Scenario.Key Scenario.Tp Scenario.EqualPred Scenario.EntrySize
           4 1000 500 Scenario.indexed_empty Scenario.indexed_over
           [ Indexed.get_ptr_resumes Scenario.a Scenario.a 0 0;
             Indexed.get_ptr_resumes Scenario.b Scenario.b 100 100;
             Indexed.get_ptr_resumes Scenario.abc Scenario.abc 200 200 ]
           1150).
  - left. reflexivity.
  - discriminate.
  - reflexivity.
Defined.

(** Every entry that survives a tick was read within the expiry period
    and, where the cache reloads, loaded within it. *)
Lemma timer_tick_survivors_are_fresh (Key Tp : Type) :
  (forall (c c' : Anchored.loading_cache Key Tp) now examined_at keys,
      Anchored.on_timer c now examined_at = Some (c', keys) ->
      forall e, In e (Anchored._lru_list c') ->
                now - Anchored._last_read (Anchored.timestamped_value e)
                <= Anchored._expiry c
                /\ now - Anchored._loaded (Anchored.timestamped_value e)
                   <= Anchored._expiry c)
  /\ (forall (c c' : Indexed.loading_cache Key Tp) now,
         Indexed.on_timer c now = Some c' ->
         forall v, In v (Indexed._lru_list c') ->
                   now - Indexed._last_read v <= Indexed._expiry c
                   /\ (Indexed.ReloadEnabled c = true ->
                       now - Indexed._loaded v <= Indexed._expiry c)).
Proof.
  split.
  - intros c c' now examined_at keys. unfold Anchored.on_timer.
    destruct (Anchored.shrink _) as [c1|] eqn:E; [|discriminate].
    intros [= <- <-].
    destruct (anchored_shrink_cuts_a_tail _ _ E) as ([evicted Hev] & _).
    rewrite anchored_drop_expired_kept in Hev.
    intros e Hin.
    assert (Hk : In e (filter (fun e => negb (Anchored.expired c now e))
                         (Anchored._lru_list c))).
    { rewrite Hev. apply in_or_app. left. exact Hin. }
    apply filter_In in Hk as [_ Hk]. apply negb_true_iff in Hk.
    unfold Anchored.expired in Hk. cbv zeta in Hk.
    apply orb_false_iff in Hk as [H1 H2].
    apply Z.ltb_ge in H1, H2. split; assumption.
  - intros c c' now. unfold Indexed.on_timer. intros E.
    destruct (indexed_shrink_cuts_a_tail _ _ E) as ([evicted Hev] & _).
    rewrite indexed_drop_expired_kept in Hev.
    intros v Hin.
    assert (Hk : In v (filter (fun v => negb (Indexed.expired c now v))
                         (Indexed._lru_list c))).
    { rewrite Hev. apply in_or_app. left. exact Hin. }
    apply filter_In in Hk as [_ Hk]. apply negb_true_iff in Hk.
    unfold Indexed.expired in Hk. cbv zeta in Hk.
    apply orb_false_iff in Hk as [H1 H2].
    apply Z.ltb_ge in H1. split; [exact H1|].
    intros Hre. rewrite Hre in H2. simpl in H2.
    apply Z.ltb_ge in H2. exact H2.
Qed.

(** What a tick leaves behind.  The survivors are the unexpired entries in
    their old order, less a tail that [shrink] cut; each was read within
    the expiry period and, where the cache reloads, loaded within it; and
    the total is within [_max_size]. *)
Theorem timer_tick_leaves_unexpired_entries_within_budget (Key Tp : Type) :
  (forall (c c' : Anchored.loading_cache Key Tp) now examined_at keys,
      Anchored.on_timer c now examined_at = Some (c', keys) ->
      (exists evicted,
          filter (fun e => negb (Anchored.expired c now e))
            (Anchored._lru_list c)
          = Anchored._lru_list c' ++ evicted)
      /\ Anchored._current_size c' <= Anchored._max_size c
      /\ forall e, In e (Anchored._lru_list c') ->
                   now - Anchored._last_read (Anchored.timestamped_value e)
                   <= Anchored._expiry c
                   /\ now - Anchored._loaded (Anchored.timestamped_value e)
                      <= Anchored._expiry c)
  /\ (forall (c c' : Indexed.loading_cache Key Tp) now,
         Indexed.on_timer c now = Some c' ->
         (exists evicted,
             filter (fun v => negb (Indexed.expired c now v))
               (Indexed._lru_list c)
             = Indexed._lru_list c' ++ evicted)
         /\ Indexed._current_size c' <= Indexed._max_size c
         /\ forall v, In v (Indexed._lru_list c') ->
                      now - Indexed._last_read v <= Indexed._expiry c
                      /\ (Indexed.ReloadEnabled c = true ->
                          now - Indexed._loaded v <= Indexed._expiry c)).
Proof.
  split.
  - intros c c' now examined_at keys. unfold Anchored.on_timer.
    destruct (Anchored.shrink _) as [c1|] eqn:E; [|discriminate].
    intros [= <- <-].
    destruct (anchored_shrink_cuts_a_tail _ _ E) as ([evicted Hev] & Hfit & _).
    rewrite anchored_drop_expired_kept in Hev.
    rewrite anchored_drop_expired_max_size in Hfit.
    split; [exists evicted; exact Hev|]. split; [exact Hfit|].
    intros e Hin.
    assert (Hk : In e (filter (fun e => negb (Anchored.expired c now e))
                         (Anchored._lru_list c))).
    { rewrite Hev. apply in_or_app. left. exact Hin. }
    apply filter_In in Hk as [_ Hk]. apply negb_true_iff in Hk.
    unfold Anchored.expired in Hk. cbv zeta in Hk.
    apply orb_false_iff in Hk as [H1 H2].
    apply Z.ltb_ge in H1, H2. split; assumption.
  - intros c c' now. unfold Indexed.on_timer. intros E.
    destruct (indexed_shrink_cuts_a_tail _ _ E) as ([evicted Hev] & Hfit & _).
    rewrite indexed_drop_expired_kept in Hev.
    rewrite (proj1 (indexed_drop_expired_config c now)) in Hfit.
    split; [exists evicted; exact Hev|]. split; [exact Hfit|].
    intros v Hin.
    assert (Hk : In v (filter (fun v => negb (Indexed.expired c now v))
                         (Indexed._lru_list c))).
    { rewrite Hev. apply in_or_app. left. exact Hin. }
    apply filter_In in Hk as [_ Hk]. apply negb_true_iff in Hk.
    unfold Indexed.expired in Hk. cbv zeta in Hk.
    apply orb_false_iff in Hk as [H1 H2].
    apply Z.ltb_ge in H1. split; [exact H1|].
    intros Hre. rewrite Hre in H2. simpl in H2.
    apply Z.ltb_ge in H2. exact H2.
Qed.

Lemma timer_tick_leaves_unexpired_entries_within_budget_witness :
  ((exists evicted,
       filter (fun e => negb (Anchored.expired Scenario.anchored_over 300 e))
         (Anchored._lru_list Scenario.anchored_over)
       = [Scenario.entry_abc; Scenario.entry_b] ++ evicted)
   /\ 4 <= Anchored._max_size Scenario.anchored_over
   /\ forall e, In e [Scenario.entry_abc; Scenario.entry_b] ->
                300 - Anchored._last_read (Anchored.timestamped_value e)
                <= Anchored._expiry Scenario.anchored_over
                /\ 300 - Anchored._loaded (Anchored.timestamped_value e)
                   <= Anchored._expiry Scenario.anchored_over)
  /\ (exists evicted,
         filter (fun v => negb (Indexed.expired Scenario.indexed_over 1150 v))
           (Indexed._lru_list Scenario.indexed_over)
         = [Scenario.node_abc] ++ evicted)
     /\ 3 <= Indexed._max_size Scenario.indexed_over
     /\ forall v, In v [Scenario.node_abc] ->
                  1150 - Indexed._last_read v
                  <= Indexed._expiry Scenario.indexed_over
                  /\ (Indexed.ReloadEnabled Scenario.indexed_over = true ->
                      1150 - Indexed._loaded v
                      <= Indexed._expiry Scenario.indexed_over).
Proof.
  destruct (timer_tick_leaves_unexpired_entries_within_budget
              Scenario.Key Scenario.Tp) as [HA HI].
  split.
  - apply (HA Scenario.anchored_over
              (Anchored.with_entries Scenario.anchored_over
                 [Scenario.entry_abc; Scenario.entry_b] 4)
              300 (fun _ => 300) []).
    reflexivity.
  - apply (HI Scenario.indexed_over
              (Indexed.with_entries Scenario.indexed_over
                 [Scenario.node_abc] 3) 1150).
    reflexivity.
Defined.

Lemma filter_nothing {A : Type} (p : A -> bool) (l : list A) :
  (forall x, In x l -> p x = false) -> filter p l = [].
Proof.
  induction l as [|x l IH]; intros H; simpl; [reflexivity|].
  rewrite (H x (or_introl eq_refl)). apply IH.
  intros y Hy. apply H. right. exact Hy.
Qed.

(** With a refresh period that is not shorter than the expiry period, and
    as long as no entry's deadline [loaded + refresh] leaves the 64-bit
    range of the clock, the refresh step finds nothing to reload: whatever
    is old enough to be refreshed has been dropped by the expiry sweep of
    the same tick.  (The clock does not run backwards between the start of
    the tick and the sweep; in [src/utils/loading_cache.hh] the entries are
    moreover examined before the clock moves on.) *)
Theorem refresh_finds_nothing_when_refresh_is_not_below_expiry
        (Key Tp : Type) :
  (forall (c c' : Indexed.loading_cache Key Tp) timer_start_tp now reloaded,
      Indexed.on_timer_with_reload c timer_start_tp now
      = Some (c', reloaded) ->
      Indexed.ReloadEnabled c = true ->
      Indexed._expiry c <= Indexed._refresh c ->
      timer_start_tp <= now ->
      (forall v, In v (Indexed._lru_list c) ->
                 int64_min <= Indexed._loaded v + Indexed._refresh c
                 <= int64_max) ->
      reloaded = [])
  /\ (forall (c c' : Anchored.loading_cache Key Tp) now examined_at keys,
         Anchored.on_timer c now examined_at = Some (c', keys) ->
         Anchored._expiry c <= Anchored._refresh c ->
         (forall i, examined_at i <= now) ->
         (forall e, In e (Anchored._lru_list c) ->
                    int64_min
                    <= Anchored._loaded (Anchored.timestamped_value e)
                       + Anchored._refresh c
                    <= int64_max) ->
         keys = []).
Proof.
  split.
  - intros c c' timer_start_tp now reloaded Htick Hre Hle Hclock Hfit.
    unfold Indexed.on_timer_with_reload in Htick.
    destruct (Indexed.on_timer c now) as [c1|] eqn:E; [|discriminate].
    injection Htick as <- <-.
    pose proof (proj2 (timer_tick_survivors_are_fresh Key Tp) c c1 now E)
      as Hfresh.
    assert (Hr : Indexed._refresh c1 = Indexed._refresh c).
    { unfold Indexed.on_timer in E.
      rewrite (proj2 (indexed_shrink_config _ _ E)).
      apply indexed_drop_expired_config. }
    assert (Hold : forall v, In v (Indexed._lru_list c1) ->
                             In v (Indexed._lru_list c)).
    { unfold Indexed.on_timer in E.
      destruct (indexed_shrink_cuts_a_tail _ _ E) as ([evicted Hev] & _).
      rewrite indexed_drop_expired_kept in Hev.
      intros v Hin.
      assert (Hk : In v (Indexed._lru_list c1 ++ evicted)).
      { apply in_or_app. left. exact Hin. }
      rewrite <- Hev in Hk. apply filter_In in Hk as [Hk _]. exact Hk. }
    apply filter_nothing. intros v Hin. apply Z.ltb_ge.
    destruct (Hfresh v Hin) as [_ Hl]. specialize (Hl Hre).
    rewrite Hr, (time_add_in_range _ _ (Hfit v (Hold v Hin))). lia.
  - intros c c' now examined_at keys Htick Hle Hclock Hfit.
    pose proof (proj1 (timer_tick_survivors_are_fresh Key Tp)
                  c c' now examined_at keys Htick) as Hfresh.
    unfold Anchored.on_timer in Htick.
    destruct (Anchored.shrink _) as [c1|] eqn:E; [|discriminate].
    injection Htick as <- <-.
    assert (Hr : Anchored._refresh c1 = Anchored._refresh c).
    { unfold Anchored.shrink, Anchored.drop_expired in E.
      destruct (remove_and_dispose_if _ _ _ _) as [l cs].
      destruct (shrink_from_back _ _ _ _) as [[rl cs']|]; [|discriminate].
      injection E as <-. reflexivity. }
    assert (Hold : forall e, In e (Anchored._lru_list c1) ->
                             In e (Anchored._lru_list c)).
    { destruct (anchored_shrink_cuts_a_tail _ _ E) as ([evicted Hev] & _).
      rewrite anchored_drop_expired_kept in Hev.
      intros e Hin.
      assert (Hk : In e (Anchored._lru_list c1 ++ evicted)).
      { apply in_or_app. left. exact Hin. }
      rewrite <- Hev in Hk. apply filter_In in Hk as [Hk _]. exact Hk. }
    assert (Hnone : forall l i,
               (forall e, In e l -> In e (Anchored._lru_list c1)) ->
               Anchored.to_reload (Anchored._refresh c1) examined_at i l = []).
    { induction l as [|e l IH]; intros i Hl; simpl; [reflexivity|].
      pose proof (Hl e (or_introl eq_refl)) as He.
      destruct (Hfresh e He) as [_ Hloaded].
      specialize (Hclock i).
      destruct (_ <? _) eqn:Hlt.
      - apply Z.ltb_lt in Hlt.
        rewrite Hr, (time_add_in_range _ _ (Hfit e (Hold e He))) in Hlt.
        lia.
      - apply IH. intros x Hx. apply Hl. right. exact Hx. }
    rewrite Hnone; [reflexivity|auto].
Qed.

Lemma refresh_finds_nothing_when_refresh_is_not_below_expiry_witness :
  (exists reloaded,
      Indexed.on_timer_with_reload Scenario.indexed_lazy 890 900
      = Some (Scenario.indexed_lazy, reloaded)
      /\ reloaded = [])
  /\ (exists keys,
         Anchored.on_timer Scenario.anchored_lazy 900 (fun _ => 900)
         = Some (Scenario.anchored_lazy, keys)
         /\ keys = []).
Proof.
  destruct (refresh_finds_nothing_when_refresh_is_not_below_expiry
              Scenario.Key Scenario.Tp) as [HI HA].
  split.
  - eexists. split; [reflexivity|].
    apply (HI Scenario.indexed_lazy Scenario.indexed_lazy 890 900).
    + reflexivity.
    + reflexivity.
    + discriminate.
    + discriminate.
    + intros v [<-|[]]. split; discriminate.
  - eexists. split; [reflexivity|].
    apply (HA Scenario.anchored_lazy Scenario.anchored_lazy 900
              (fun _ => 900)).
    + reflexivity.
    + discriminate.
    + intros i. discriminate.
    + intros e [<-|[]]. split; discriminate.
Defined.

(** ** One entry per key *)
Section UniqueKeys.
Context {A K : Type}.
Variable key_of : A -> K.

Lemma extract_keeps_keys_distinct (p : A -> bool) (l r : list A) (e e' : A) :
  extract p l = Some (e, r) -> key_of e' = key_of e ->
  NoDup (map key_of l) -> NoDup (map key_of (e' :: r)).
Proof.
  intros E Hk Hl.
  destruct (extract_split _ _ _ _ E) as (l1 & l2 & -> & -> & _).
  rewrite map_app in Hl. simpl in Hl.
  apply NoDup_remove in Hl as [Hl Hnot].
  simpl. rewrite Hk, map_app. constructor; assumption.
Qed.

Lemma filter_keeps_keys_distinct (q : A -> bool) (l : list A) :
  NoDup (map key_of l) -> NoDup (map key_of (filter q l)).
Proof.
  induction l as [|x l IH]; simpl; intros H; [constructor|].
  inversion H as [|? ? Hnot Hl]; subst.
  destruct (q x); [|exact (IH Hl)].
  simpl. constructor; [|exact (IH Hl)].
  intros Hin. apply Hnot.
  apply in_map_iff in Hin as (y & Hy & Hin).
  apply filter_In in Hin as [Hin _].
  apply in_map_iff. exists y. split; assumption.
Qed.

Lemma prefix_keeps_keys_distinct (l l' evicted : list A) :
  l = l' ++ evicted -> NoDup (map key_of l) -> NoDup (map key_of l').
Proof.
  intros -> H. rewrite map_app in H.
  apply NoDup_app_remove_r in H. exact H.
Qed.

Lemma update_first_keeps_keys (p : A -> bool) (f : A -> A) (l : list A) :
  (forall x, key_of (f x) = key_of x) ->
  map key_of (update_first p f l) = map key_of l.
Proof.
  intros Hf. induction l as [|x l IH]; simpl; [reflexivity|].
  destruct (p x); simpl; [rewrite Hf|rewrite IH]; reflexivity.
Qed.

Lemma absent_key_not_among_keys (eqb : K -> K -> bool) (k : K) (l : list A) :
  (forall a, eqb a a = true) ->
  extract (fun e => eqb k (key_of e)) l = None ->
  ~ In k (map key_of l).
Proof.
  intros Hrefl E Hin. apply extract_none_find in E.
  apply in_map_iff in Hin as (x & <- & Hin).
  pose proof (find_none _ _ E x Hin) as H. simpl in H.
  rewrite Hrefl in H. discriminate.
Qed.
End UniqueKeys.

Lemma anchored_step_keeps_keys_distinct {Key Tp : Type}
      (EqualPred : Key -> Key -> bool) (EntrySize : Tp -> Z)
      (c c' : Anchored.loading_cache Key Tp) (s : Anchored.step_label Key Tp) :
  (forall k, EqualPred k k = true) ->
  NoDup (map Anchored.key (Anchored._lru_list c)) ->
  Anchored.step EqualPred EntrySize c s = Some c' ->
  NoDup (map Anchored.key (Anchored._lru_list c')).
Proof.
  intros Hrefl H.
  destruct s as [k ts_val now|now examined_at|k f now|]; simpl.
  - intros [= <-]. unfold Anchored.get_cont.
    destruct (extract _ _) as [[e rest]|] eqn:E.
    + apply (extract_keeps_keys_distinct Anchored.key _ _ _ _ _ E eq_refl H).
    + destruct (_ <? _); [exact H|]. simpl. constructor; [|exact H].
      apply (absent_key_not_among_keys Anchored.key EqualPred k _ Hrefl E).
  - unfold Anchored.on_timer.
    destruct (Anchored.shrink _) as [c1|] eqn:E; [|discriminate].
    simpl. intros [= <-].
    destruct (anchored_shrink_cuts_a_tail _ _ E) as ([evicted Hev] & _).
    apply (prefix_keeps_keys_distinct Anchored.key _ _ _ Hev).
    rewrite anchored_drop_expired_kept.
    apply filter_keeps_keys_distinct, H.
  - intros [= <-]. unfold Anchored.reload_cont.
    destruct (Anchored.set_find _ _ _); [|exact H].
    destruct f; [|exact H]. simpl.
    rewrite (update_first_keeps_keys Anchored.key); [exact H|reflexivity].
  - intros [= <-]. constructor.
Qed.

Lemma indexed_step_keeps_keys_distinct {Key Tp : Type}
      (EqualPred : Key -> Key -> bool) (EntrySize : Tp -> Z)
      (c c' : Indexed.loading_cache Key Tp) (s : Indexed.step_label Key Tp) :
  (forall k, EqualPred k k = true) ->
  NoDup (map Indexed.key (Indexed._lru_list c)) ->
  Indexed.step EqualPred EntrySize c s = Some c' ->
  NoDup (map Indexed.key (Indexed._lru_list c')).
Proof.
  intros Hrefl H.
  destruct s as [k now|k val built now|k|pred|k now|now|ts_val f now|]; simpl.
  - unfold Indexed.get_ptr. destruct (negb _); [discriminate|].
    destruct (extract _ _) as [[e rest]|] eqn:E; intros [= <-]; [|exact H].
    apply (extract_keeps_keys_distinct Indexed.key _ _ _ _ _ E eq_refl H).
  - intros [= <-]. unfold Indexed.get_ptr_cont.
    destruct (extract _ _) as [[e rest]|] eqn:E.
    + apply (extract_keeps_keys_distinct Indexed.key _ _ _ _ _ E eq_refl H).
    + simpl. constructor; [|exact H].
      apply (absent_key_not_among_keys Indexed.key EqualPred k _ Hrefl E).
  - intros [= <-]. unfold Indexed.erase.
    pose proof (remove_and_dispose_if_kept Indexed._size
                  (Indexed.key_eq EqualPred k) (Indexed._lru_list c)
                  (Indexed._current_size c)) as G.
    destruct (remove_and_dispose_if _ _ _ _) as [l cs]. simpl in *.
    rewrite G. apply filter_keeps_keys_distinct, H.
  - intros [= <-]. unfold Indexed.remove_if.
    pose proof (remove_and_dispose_if_kept Indexed._size
                  (fun v => pred (Indexed._value v)) (Indexed._lru_list c)
                  (Indexed._current_size c)) as G.
    destruct (remove_and_dispose_if _ _ _ _) as [l cs]. simpl in *.
    rewrite G. apply filter_keeps_keys_distinct, H.
  - unfold Indexed.at_.
    destruct (extract _ _) as [[e rest]|] eqn:E; intros [= <-]; [|exact H].
    apply (extract_keeps_keys_distinct Indexed.key _ _ _ _ _ E eq_refl H).
  - unfold Indexed.on_timer. intros E.
    destruct (indexed_shrink_cuts_a_tail _ _ E) as ([evicted Hev] & _).
    apply (prefix_keeps_keys_distinct Indexed.key _ _ _ Hev).
    rewrite indexed_drop_expired_kept.
    apply filter_keeps_keys_distinct, H.
  - unfold Indexed.reload_cont.
    destruct (find _ _); [|discriminate]. simpl. intros [= <-].
    destruct f; [|exact H]. simpl.
    rewrite (update_first_keeps_keys Indexed.key); [exact H|reflexivity].
  - intros [= <-]. constructor.
Qed.

Lemma anchored_run_keeps_keys_distinct {Key Tp : Type}
      (EqualPred : Key -> Key -> bool) (EntrySize : Tp -> Z)
      (ss : list (Anchored.step_label Key Tp))
      (c c' : Anchored.loading_cache Key Tp) :
  (forall k, EqualPred k k = true) ->
  NoDup (map Anchored.key (Anchored._lru_list c)) ->
  Anchored.run EqualPred EntrySize c ss = Some c' ->
  NoDup (map Anchored.key (Anchored._lru_list c')).
Proof.
  intros Hrefl. revert c. induction ss as [|s ss IH]; intros c H; simpl.
  - intros [= <-]. exact H.
  - destruct (Anchored.step _ _ c s) as [c1|] eqn:E; [|discriminate].
    apply IH, (anchored_step_keeps_keys_distinct _ _ _ _ _ Hrefl H E).
Qed.

Lemma indexed_run_keeps_keys_distinct {Key Tp : Type}
      (EqualPred : Key -> Key -> bool) (EntrySize : Tp -> Z)
      (ss : list (Indexed.step_label Key Tp))
      (c c' : Indexed.loading_cache Key Tp) :
  (forall k, EqualPred k k = true) ->
  NoDup (map Indexed.key (Indexed._lru_list c)) ->
  Indexed.run EqualPred EntrySize c ss = Some c' ->
  NoDup (map Indexed.key (Indexed._lru_list c')).
Proof.
  intros Hrefl. revert c. induction ss as [|s ss IH]; intros c H; simpl.
  - intros [= <-]. exact H.
  - destruct (Indexed.step _ _ c s) as [c1|] eqn:E; [|discriminate].
    apply IH, (indexed_step_keeps_keys_distinct _ _ _ _ _ Hrefl H E).
Qed.

(** With an [EqualPred] that holds of every key and itself, no sequence of
    steps of a constructed cache leaves two resident entries with the same
    key: the continuation of a load installs only after it has looked the
    key up again. *)
Theorem resident_keys_stay_distinct
        (Key Tp : Type) (EqualPred : Key -> Key -> bool)
        (EntrySize : Tp -> Z) (max_size expiry refresh : Z) :
  (forall k, EqualPred k k = true) ->
  (forall c0 ss c,
      Anchored.loading_cache_ctor Key Tp max_size expiry refresh
      = constructed c0 ->
      Anchored.run EqualPred EntrySize c0 ss = Some c ->
      NoDup (map Anchored.key (Anchored._lru_list c)))
  /\ (forall c0 ss c,
         Indexed.loading_cache_ctor Key Tp max_size expiry refresh
         = constructed c0
         \/ Indexed.loading_cache_ctor_no_reload Key Tp max_size expiry
            = constructed c0 ->
         Indexed.run EqualPred EntrySize c0 ss = Some c ->
         NoDup (map Indexed.key (Indexed._set c))).
Proof.
  intros Hrefl. split.
  - intros c0 ss c Hc0.
    destruct (anchored_ctor_empty _ _ _ _ Hc0) as (Hl & _).
    apply (anchored_run_keeps_keys_distinct _ _ _ _ _ Hrefl).
    rewrite Hl. constructor.
  - intros c0 ss c Hc0.
    destruct (indexed_ctor_empty _ _ _ _ Hc0) as (Hl & _).
    apply (indexed_run_keeps_keys_distinct _ _ _ _ _ Hrefl).
    rewrite Hl. constructor.
Qed.

Lemma resident_keys_stay_distinct_witness :
  (exists c,
      Anchored.run Scenario.EqualPred Scenario.EntrySize
        Scenario.anchored_empty Scenario.anchored_steps = Some c
      /\ NoDup (map Anchored.key (Anchored._lru_list c)))
  /\ (exists c,
         Indexed.run Scenario.EqualPred Scenario.EntrySize
           Scenario.indexed_empty Scenario.indexed_steps = Some c
         /\ NoDup (map Indexed.key (Indexed._set c))).
Proof.
  destruct (resident_keys_stay_distinct
              Scenario.Key Scenario.Tp Scenario.EqualPred Scenario.EntrySize
              4 1000 500 String.eqb_refl) as [HA HI].
  split.
  - eexists. split; [reflexivity|].
    apply (HA Scenario.anchored_empty Scenario.anchored_steps);
      reflexivity.
  - eexists. split; [reflexivity|].
    apply (HI Scenario.indexed_empty Scenario.indexed_steps);
      [left|]; reflexivity.
Defined.

(** ** Lookups, hits and removals *)
Section LookupFacts.
Context {A : Type}.
Variable sz : A -> Z.

Lemma find_extract (p : A -> bool) (l : list A) (e : A) :
  find p l = Some e ->
  exists l1 l2, l = l1 ++ e :: l2 /\ extract p l = Some (e, l1 ++ l2)
                /\ p e = true.
Proof.
  intros H. rewrite extract_find in H.
  destruct (extract p l) as [[x r]|] eqn:E; [|discriminate].
  injection H as ->.
  destruct (extract_split _ _ _ _ E) as (l1 & l2 & -> & -> & He & _).
  exists l1, l2. auto.
Qed.

Lemma find_after_filter (p : A -> bool) (l : list A) :
  find p (filter (fun x => negb (p x)) l) = None.
Proof.
  induction l as [|x l IH]; simpl; [reflexivity|].
  destruct (p x) eqn:E; simpl; [exact IH|]. rewrite E. exact IH.
Qed.

Lemma remove_and_dispose_if_no_match (pred : A -> bool) (l : list A)
      (cs : Z) :
  (forall x, In x l -> pred x = false) ->
  remove_and_dispose_if sz pred l cs = (l, cs).
Proof.
  induction l as [|x l IH]; intros H; simpl; [reflexivity|].
  rewrite (H x (or_introl eq_refl)), IH; [reflexivity|].
  intros y Hy. apply H. right. exact Hy.
Qed.

Lemma remove_and_dispose_if_one_match (pred : A -> bool) (l1 l2 : list A)
      (v : A) (cs : Z) :
  (forall x, In x l1 -> pred x = false) ->
  (forall x, In x l2 -> pred x = false) ->
  pred v = true ->
  remove_and_dispose_if sz pred (l1 ++ v :: l2) cs
  = (l1 ++ l2, size_sub cs (sz v)).
Proof.
  intros H1 H2 Hv. induction l1 as [|x l1 IH]; simpl.
  - rewrite Hv. apply remove_and_dispose_if_no_match, H2.
  - rewrite (H1 x (or_introl eq_refl)), IH; [reflexivity|].
    intros y Hy. apply H1. right. exact Hy.
Qed.

(** A lookup after an assignment in place: when both predicates single out
    the same node and the assignment does not change what the lookup tests,
    the lookup finds the assigned node. *)
Lemma find_after_update_first (p q : A -> bool) (f : A -> A) (l : list A)
      (v : A) :
  (forall x, q (f x) = q x) ->
  find p l = Some v -> find q l = Some v ->
  find q (update_first p f l) = Some (f v).
Proof.
  intros Hf. induction l as [|x l IH]; simpl; [discriminate|].
  destruct (p x) eqn:Hp; destruct (q x) eqn:Hq; simpl; intros H1 H2.
  - rewrite Hf, Hq. congruence.
  - injection H1 as ->. apply find_some in H2 as [_ H2]. congruence.
  - injection H2 as ->. apply find_some in H1 as [_ H1]. congruence.
  - rewrite Hq. apply IH; assumption.
Qed.
End LookupFacts.

(** When the key is resident the continuation of [get] or [get_ptr] sets
    the freshly loaded value aside, whatever its size: it serves the
    resident value, stamps the entry's [last_read] and moves it to the front
    of the LRU list.  The other entries keep their order, and the number of
    entries and the total do not change.  A hit of [get_ptr] does the
    same. *)
Theorem resident_key_is_served_and_moved_to_the_front
        (Key Tp : Type) (EqualPred : Key -> Key -> bool)
        (EntrySize : Tp -> Z) :
  (forall (c : Anchored.loading_cache Key Tp) k e ts_val now,
      Anchored.set_find EqualPred c k = Some e ->
      exists l1 l2,
        Anchored._lru_list c = l1 ++ e :: l2
        /\ Anchored.get_cont EqualPred c k ts_val now
           = (Anchored.with_entries c
                (Anchored.on_value (Anchored.read_at now) e :: l1 ++ l2)
                (Anchored._current_size c),
              Anchored.ready_future
                (Anchored._value (Anchored.timestamped_value e))))
  /\ (forall (c : Indexed.loading_cache Key Tp) k v val built now,
         Indexed.find EqualPred c k = Some v ->
         exists l1 l2,
           Indexed._lru_list c = l1 ++ v :: l2
           /\ Indexed.get_ptr_cont EqualPred EntrySize c k val built now
              = (Indexed.with_entries c
                   (Indexed.read_at now v :: l1 ++ l2)
                   (Indexed._current_size c),
                 Indexed._value v)
           /\ (Indexed._expiry c <> 0 ->
               Indexed.get_ptr EqualPred c k now
               = Indexed.ready_ptr
                   (Indexed.with_entries c
                      (Indexed.read_at now v :: l1 ++ l2)
                      (Indexed._current_size c))
                   (Indexed._value v))).
Proof.
  split.
  - intros c k e ts_val now Hfind.
    destruct (find_extract _ _ _ Hfind) as (l1 & l2 & Hl & E & _).
    exists l1, l2. split; [exact Hl|].
    unfold Anchored.get_cont. rewrite E. reflexivity.
  - intros c k v val built now Hfind.
    unfold Indexed.find, Indexed.set_find, Indexed._set in Hfind.
    destruct (find_extract _ _ _ Hfind) as (l1 & l2 & Hl & E & _).
    exists l1, l2. split; [exact Hl|]. split.
    + unfold Indexed.get_ptr_cont. rewrite E. reflexivity.
    + intros Hexp. apply Z.eqb_neq in Hexp.
      unfold Indexed.get_ptr, Indexed.caching_enabled.
      rewrite Hexp, E. reflexivity.
Qed.

Lemma resident_key_is_served_and_moved_to_the_front_witness :
  (exists l1 l2,
      Anchored._lru_list Scenario.anchored_over = l1 ++ Scenario.entry_a :: l2
      /\ Anchored.get_cont Scenario.EqualPred Scenario.anchored_over
           Scenario.a
           (Anchored.timestamped_val_ctor Scenario.EntrySize Scenario.hello
              300) 300
         = (Anchored.with_entries Scenario.anchored_over
              (Anchored.on_value (Anchored.read_at 300) Scenario.entry_a
                 :: l1 ++ l2)
              (Anchored._current_size Scenario.anchored_over),
            Anchored.ready_future
              (Anchored._value
                 (Anchored.timestamped_value Scenario.entry_a))))
  /\ (exists l1 l2,
         Indexed._lru_list Scenario.indexed_over = l1 ++ Scenario.node_a :: l2
         /\ Indexed.get_ptr_cont Scenario.EqualPred Scenario.EntrySize
              Scenario.indexed_over Scenario.a Scenario.hello 300 300
            = (Indexed.with_entries Scenario.indexed_over
                 (Indexed.read_at 300 Scenario.node_a :: l1 ++ l2)
                 (Indexed._current_size Scenario.indexed_over),
               Indexed._value Scenario.node_a)
         /\ (Indexed._expiry Scenario.indexed_over <> 0 ->
             Indexed.get_ptr Scenario.EqualPred Scenario.indexed_over
               Scenario.a 300
             = Indexed.ready_ptr
                 (Indexed.with_entries Scenario.indexed_over
                    (Indexed.read_at 300 Scenario.node_a :: l1 ++ l2)
                    (Indexed._current_size Scenario.indexed_over))
                 (Indexed._value Scenario.node_a))).
Proof.
  destruct (resident_key_is_served_and_moved_to_the_front
              Scenario.Key Scenario.Tp Scenario.EqualPred Scenario.EntrySize)
    as [HA HI].
  split.
  - apply HA. reflexivity.
  - apply HI. reflexivity.
Defined.

(** [at(k)] throws [entry_not_found] exactly when [find(k)] is the end
    iterator, and [operator[](k)] is undefined exactly then.  On a resident
    key both read the value [find] points to and leave the cache as a
    [get_ptr] hit at the same time does. *)
Theorem at_throws_exactly_on_absent_keys
        (Key Tp : Type) (EqualPred : Key -> Key -> bool)
        (c : Indexed.loading_cache Key Tp) (k : Key) (now : Z) :
  (Indexed.find EqualPred c k = None ->
   Indexed.at_ EqualPred c k now = Indexed.entry_not_found
   /\ Indexed.subscript EqualPred c k now = None)
  /\ (forall v,
         Indexed.find EqualPred c k = Some v ->
         exists c',
           Indexed.at_ EqualPred c k now
           = Indexed.value_ref c' (Indexed._value v)
           /\ Indexed.subscript EqualPred c k now
              = Some (c', Indexed._value v)
           /\ (Indexed._expiry c <> 0 ->
               Indexed.get_ptr EqualPred c k now
               = Indexed.ready_ptr c' (Indexed._value v))).
Proof.
  unfold Indexed.find, Indexed.set_find, Indexed._set, Indexed.at_,
    Indexed.subscript, Indexed.get_ptr, Indexed.caching_enabled.
  split.
  - intros H. apply extract_none_find in H. rewrite H. split; reflexivity.
  - intros v H. destruct (find_extract _ _ _ H) as (l1 & l2 & _ & E & _).
    rewrite E. eexists. split; [reflexivity|]. split; [reflexivity|].
    intros Hexp. apply Z.eqb_neq in Hexp. rewrite Hexp. reflexivity.
Qed.

Lemma at_throws_exactly_on_absent_keys_witness :
  (Indexed.at_ Scenario.EqualPred Scenario.indexed_ba Scenario.hello 300
   = Indexed.entry_not_found
   /\ Indexed.subscript Scenario.EqualPred Scenario.indexed_ba
        Scenario.hello 300 = None)
  /\ exists c',
      Indexed.at_ Scenario.EqualPred Scenario.indexed_ba Scenario.a 300
      = Indexed.value_ref c' (Indexed._value Scenario.node_a)
      /\ Indexed.subscript Scenario.EqualPred Scenario.indexed_ba
           Scenario.a 300
         = Some (c', Indexed._value Scenario.node_a)
      /\ (Indexed._expiry Scenario.indexed_ba <> 0 ->
          Indexed.get_ptr Scenario.EqualPred Scenario.indexed_ba Scenario.a
            300
          = Indexed.ready_ptr c' (Indexed._value Scenario.node_a)).
Proof.
  split.
  - apply (proj1 (at_throws_exactly_on_absent_keys
                    Scenario.Key Scenario.Tp Scenario.EqualPred
                    Scenario.indexed_ba Scenario.hello 300)).
    reflexivity.
  - apply (proj2 (at_throws_exactly_on_absent_keys
                    Scenario.Key Scenario.Tp Scenario.EqualPred
                    Scenario.indexed_ba Scenario.a 300)).
    reflexivity.
Defined.

(** What a completed [get] or [get_ptr] returned is what the cache serves
    for the key from then on: the next continuation for the key returns the
    same value, whatever value it was handed, and in [part_001] so do [find]
    and [at]. *)
Theorem value_returned_is_the_value_served
        (Key Tp : Type) (EqualPred : Key -> Key -> bool)
        (EntrySize : Tp -> Z) (k : Key) :
  EqualPred k k = true ->
  (forall (c c' : Anchored.loading_cache Key Tp) ts_val now val,
      Anchored.get_cont EqualPred c k ts_val now
      = (c', Anchored.ready_future val) ->
      (exists e, Anchored.set_find EqualPred c' k = Some e
                 /\ Anchored._value (Anchored.timestamped_value e) = val
                 /\ Anchored._last_read (Anchored.timestamped_value e) = now)
      /\ forall ts_val' now',
          snd (Anchored.get_cont EqualPred c' k ts_val' now')
          = Anchored.ready_future val)
  /\ (forall (c c' : Indexed.loading_cache Key Tp) val built now served,
         Indexed.get_ptr_cont EqualPred EntrySize c k val built now
         = (c', served) ->
         (exists v, Indexed.find EqualPred c' k = Some v
                    /\ Indexed._value v = served
                    /\ Indexed._last_read v = now)
         /\ (forall val' built' now',
                snd (Indexed.get_ptr_cont EqualPred EntrySize c' k val' built'
                       now') = served)
         /\ forall now',
             exists c'', Indexed.at_ EqualPred c' k now'
                         = Indexed.value_ref c'' served).
Proof.
  intros Hrefl. split.
  - intros c c' ts_val now val. unfold Anchored.get_cont at 1.
    destruct (extract _ (Anchored._lru_list c)) as [[e rest]|] eqn:E.
    + intros [= <- <-].
      destruct (extract_split _ _ _ _ E) as (_ & _ & _ & _ & He & _).
      unfold Anchored.set_find, Anchored.get_cont. simpl.
      unfold Anchored.has_key at 1 3. simpl.
      unfold Anchored.has_key in He. rewrite He. simpl.
      split; [eexists; split; [reflexivity|split; reflexivity]|].
      reflexivity.
    + destruct (_ <? _); [discriminate|]. intros [= <- <-].
      unfold Anchored.set_find, Anchored.get_cont. simpl.
      unfold Anchored.has_key at 1 3. simpl. rewrite Hrefl. simpl.
      split; [eexists; split; [reflexivity|split; reflexivity]|].
      reflexivity.
  - intros c c' val built now served. unfold Indexed.get_ptr_cont at 1.
    destruct (extract _ (Indexed._lru_list c)) as [[e rest]|] eqn:E.
    + intros [= <- <-].
      destruct (extract_split _ _ _ _ E) as (_ & _ & _ & _ & He & _).
      unfold Indexed.find, Indexed.set_find, Indexed._set,
        Indexed.get_ptr_cont, Indexed.at_. simpl.
      unfold Indexed.key_eq at 1 3 5. simpl.
      unfold Indexed.key_eq in He. rewrite He. simpl.
      split; [eexists; split; [reflexivity|split; reflexivity]|].
      split; [reflexivity|]. intros now'. eexists. reflexivity.
    + intros [= <- <-].
      unfold Indexed.find, Indexed.set_find, Indexed._set,
        Indexed.get_ptr_cont, Indexed.at_. simpl.
      unfold Indexed.key_eq at 1 3 5. simpl. rewrite Hrefl. simpl.
      split; [eexists; split; [reflexivity|split; reflexivity]|].
      split; [reflexivity|]. intros now'. eexists. reflexivity.
Qed.

Lemma value_returned_is_the_value_served_witness :
  ((exists e, Anchored.set_find Scenario.EqualPred Scenario.anchored_ba
                Scenario.b = Some e
              /\ Anchored._value (Anchored.timestamped_value e) = Scenario.b
              /\ Anchored._last_read (Anchored.timestamped_value e) = 100)
   /\ forall ts_val' now',
       snd (Anchored.get_cont Scenario.EqualPred Scenario.anchored_ba
              Scenario.b ts_val' now')
       = Anchored.ready_future Scenario.b)
  /\ (exists v, Indexed.find Scenario.EqualPred Scenario.indexed_ba
                  Scenario.b = Some v
                /\ Indexed._value v = Scenario.b
                /\ Indexed._last_read v = 100)
     /\ (forall val' built' now',
            snd (Indexed.get_ptr_cont Scenario.EqualPred Scenario.EntrySize
                   Scenario.indexed_ba Scenario.b val' built' now')
            = Scenario.b)
     /\ forall now',
         exists c'', Indexed.at_ Scenario.EqualPred Scenario.indexed_ba
                       Scenario.b now'
                     = Indexed.value_ref c'' Scenario.b.
Proof.
  destruct (value_returned_is_the_value_served
              Scenario.Key Scenario.Tp Scenario.EqualPred Scenario.EntrySize
              Scenario.b eq_refl) as [HA HI].
  split.
  - apply (HA Scenario.anchored_a Scenario.anchored_ba
              (Anchored.timestamped_val_ctor Scenario.EntrySize Scenario.b
                 100) 100 Scenario.b).
    reflexivity.
  - apply (HI Scenario.indexed_a Scenario.indexed_ba Scenario.b 100 100
              Scenario.b).
    reflexivity.
Defined.

(** After [erase(k)] no entry answers to [k]; the entries of other keys are
    all still there, in their order and untouched; the count returned is
    the number of entries that went. *)
Theorem erase_removes_every_entry_of_the_key
        (Key Tp : Type) (EqualPred : Key -> Key -> bool)
        (c : Indexed.loading_cache Key Tp) (k : Key) :
  let c' := fst (Indexed.erase EqualPred c k) in
  Indexed.find EqualPred c' k = None
  /\ Indexed._lru_list c'
     = filter (fun v => negb (EqualPred k (Indexed.key v)))
         (Indexed._lru_list c)
  /\ snd (Indexed.erase EqualPred c k)
     = Z.of_nat (length (Indexed._lru_list c))
       - Z.of_nat (length (Indexed._lru_list c')).
Proof.
  unfold Indexed.erase, Indexed.find, Indexed.set_find, Indexed._set.
  pose proof (remove_and_dispose_if_kept Indexed._size
                (Indexed.key_eq EqualPred k) (Indexed._lru_list c)
                (Indexed._current_size c)) as G.
  destruct (remove_and_dispose_if _ _ _ _) as [l cs]. simpl in *.
  subst l. split; [apply find_after_filter|]. split; reflexivity.
Qed.

(** The count [erase(k)] returns.  For an absent key it is 0 and the cache
    is left exactly as it was.  In a cache that holds one entry per key,
    under an [EqualPred] that holds of equal keys only, it is 1 for a
    resident key: that entry alone is unlinked and its size leaves the
    total. *)
Theorem erase_returns_zero_or_one
        (Key Tp : Type) (EqualPred : Key -> Key -> bool)
        (c : Indexed.loading_cache Key Tp) (k : Key) :
  (Indexed.find EqualPred c k = None ->
   Indexed.erase EqualPred c k = (c, 0))
  /\ (forall l1 v l2,
         (forall a b, EqualPred a b = true -> a = b) ->
         NoDup (map Indexed.key (Indexed._set c)) ->
         Indexed._lru_list c = l1 ++ v :: l2 ->
         EqualPred k (Indexed.key v) = true ->
         Indexed.erase EqualPred c k
         = (Indexed.with_entries c (l1 ++ l2)
              (wrap (Indexed._current_size c - Indexed._size v)), 1)).
Proof.
  unfold Indexed.erase, Indexed.find, Indexed.set_find, Indexed._set.
  split.
  - intros H.
    rewrite (remove_and_dispose_if_no_match Indexed._size).
    + rewrite Z.sub_diag, indexed_with_entries_same. reflexivity.
    + intros x Hx. apply (find_none _ _ H x Hx).
  - intros l1 v l2 Heq Hnd Hl Hv. rewrite Hl in *.
    assert (Hother : forall x, In x (l1 ++ l2) ->
                               Indexed.key_eq EqualPred k x = false).
    { intros x Hx. unfold Indexed.key_eq.
      destruct (EqualPred k (Indexed.key x)) eqn:Ex; [|reflexivity].
      exfalso. apply Heq in Ex. apply Heq in Hv.
      rewrite map_app in Hnd. simpl in Hnd.
      apply NoDup_remove in Hnd as [_ Hnot]. apply Hnot.
      rewrite <- Hv, Ex, <- map_app. apply in_map. exact Hx. }
    rewrite (remove_and_dispose_if_one_match Indexed._size).
    + rewrite !length_app. simpl. f_equal. lia.
    + intros x Hx. apply Hother, in_or_app. left. exact Hx.
    + intros x Hx. apply Hother, in_or_app. right. exact Hx.
    + exact Hv.
Qed.

Lemma erase_returns_zero_or_one_witness :
  Indexed.erase Scenario.EqualPred Scenario.indexed_over Scenario.hello
  = (Scenario.indexed_over, 0)
  /\ Indexed.erase Scenario.EqualPred Scenario.indexed_over Scenario.b
     = (Indexed.with_entries Scenario.indexed_over
          ([Scenario.node_abc] ++ [Scenario.node_a])
          (wrap (Indexed._current_size Scenario.indexed_over
                 - Indexed._size Scenario.node_b)), 1).
Proof.
  split.
  - apply (proj1 (erase_returns_zero_or_one
                    Scenario.Key Scenario.Tp Scenario.EqualPred
                    Scenario.indexed_over Scenario.hello)).
    reflexivity.
  - apply (proj2 (erase_returns_zero_or_one
                    Scenario.Key Scenario.Tp Scenario.EqualPred
                    Scenario.indexed_over Scenario.b)
             [Scenario.node_abc] Scenario.node_b [Scenario.node_a]).
    + intros a b H. apply String.eqb_eq. exact H.
    + repeat constructor; simpl; intuition discriminate.
    + reflexivity.
    + reflexivity.
Defined.

(** After [remove_if(pred)] no resident value satisfies [pred]; the entries
    whose value fails it are all still there, in their order, and none of
    them has been touched. *)
Theorem remove_if_removes_exactly_the_matching_values
        (Key Tp : Type) (c : Indexed.loading_cache Key Tp)
        (pred : Tp -> bool) :
  Indexed._lru_list (Indexed.remove_if c pred)
  = filter (fun v => negb (pred (Indexed._value v))) (Indexed._lru_list c)
  /\ forall v, In v (Indexed._lru_list (Indexed.remove_if c pred)) ->
               pred (Indexed._value v) = false.
Proof.
  assert (H : Indexed._lru_list (Indexed.remove_if c pred)
              = filter (fun v => negb (pred (Indexed._value v)))
                  (Indexed._lru_list c)).
  { unfold Indexed.remove_if.
    rewrite <- (remove_and_dispose_if_kept Indexed._size
                  (fun v => pred (Indexed._value v)) (Indexed._lru_list c)
                  (Indexed._current_size c)).
    destruct (remove_and_dispose_if _ _ _ _). reflexivity. }
  split; [exact H|].
  intros v Hin. rewrite H in Hin. apply filter_In in Hin as [_ Hin].
  apply negb_true_iff. exact Hin.
Qed.

(** ** Destruction, reload and the sweep *)

Lemma anchored_run_stays_accounted {Key Tp : Type}
      (EqualPred : Key -> Key -> bool) (EntrySize : Tp -> Z)
      (ss : list (Anchored.step_label Key Tp))
      (c c' : Anchored.loading_cache Key Tp) :
  Anchored._current_size c = wrap (Anchored.resident_size c) ->
  Anchored.run EqualPred EntrySize c ss = Some c' ->
  Anchored._current_size c' = wrap (Anchored.resident_size c').
Proof.
  revert c. induction ss as [|s ss IH]; intros c H; simpl.
  - intros [= <-]. exact H.
  - destruct (Anchored.step _ _ c s) as [c1|] eqn:E; [|discriminate].
    apply IH, (anchored_step_accounted _ _ _ _ _ H E).
Qed.

(** Destroying a cache that was reached from a constructed one disposes
    every entry and brings [_current_size] back to zero: every size that
    was added has been subtracted again. *)
Theorem destructor_releases_every_entry
        (Key Tp : Type) (EqualPred : Key -> Key -> bool)
        (EntrySize : Tp -> Z) (max_size expiry refresh : Z) :
  (forall c0 ss c,
      Anchored.loading_cache_ctor Key Tp max_size expiry refresh
      = constructed c0 ->
      Anchored.run EqualPred EntrySize c0 ss = Some c ->
      Anchored._lru_list (Anchored.destructor c) = []
      /\ Anchored._current_size (Anchored.destructor c) = 0)
  /\ (forall c0 ss c,
         Indexed.loading_cache_ctor Key Tp max_size expiry refresh
         = constructed c0
         \/ Indexed.loading_cache_ctor_no_reload Key Tp max_size expiry
            = constructed c0 ->
         Indexed.run EqualPred EntrySize c0 ss = Some c ->
         Indexed.entries_count (Indexed.destructor c) = 0
         /\ Indexed.size (Indexed.destructor c) = 0).
Proof.
  split.
  - intros c0 ss c Hc0 Hrun. split; [reflexivity|].
    destruct (anchored_ctor_empty _ _ _ _ Hc0) as (Hl & Hcs & _).
    assert (Hacc : Anchored._current_size c
                   = wrap (Anchored.resident_size c)).
    { apply (anchored_run_stays_accounted EqualPred EntrySize ss c0 c);
        [|exact Hrun].
      unfold Anchored.resident_size. rewrite Hl, Hcs. reflexivity. }
    apply (dispose_all_accounted Anchored.entry_size _ _ Hacc).
  - intros c0 ss c Hc0 Hrun. split; [reflexivity|].
    destruct (indexed_ctor_empty _ _ _ _ Hc0) as (Hl & Hcs).
    assert (Hacc : Indexed._current_size c = wrap (Indexed.resident_size c)).
    { apply (indexed_run_accounted EqualPred EntrySize c0 ss c); [|exact Hrun].
      unfold Indexed.resident_size, Indexed._set. rewrite Hl, Hcs.
      reflexivity. }
    apply (dispose_all_accounted Indexed._size _ _ Hacc).
Qed.

Lemma destructor_releases_every_entry_witness :
  (Anchored._lru_list (Anchored.destructor Scenario.anchored_over) = []
   /\ Anchored._current_size (Anchored.destructor Scenario.anchored_over) = 0)
  /\ Indexed.entries_count (Indexed.destructor Scenario.indexed_over) = 0
     /\ Indexed.size (Indexed.destructor Scenario.indexed_over) = 0.
Proof.
  destruct (destructor_releases_every_entry
              Scenario.Key Scenario.Tp Scenario.EqualPred Scenario.EntrySize
              4 1000 500) as [HA HI].
  split.
  - apply (HA Scenario.anchored_empty
              [ Anchored.get_resumes Scenario.a
                  (Anchored.timestamped_val_ctor Scenario.EntrySize
                     Scenario.a 0) 0;
                Anchored.get_resumes Scenario.b
                  (Anchored.timestamped_val_ctor Scenario.EntrySize
                     Scenario.b 100) 100;
                Anchored.get_resumes Scenario.abc
                  (Anchored.timestamped_val_ctor Scenario.EntrySize
                     Scenario.abc 200) 200 ]);
      reflexivity.
  - apply (HI Scenario.indexed_empty
              [ Indexed.get_ptr_resumes Scenario.a Scenario.a 0 0;
                Indexed.get_ptr_resumes Scenario.b Scenario.b 100 100;
                Indexed.get_ptr_resumes Scenario.abc Scenario.abc 200 200 ]);
      [left|]; reflexivity.
Defined.

(** A successful background reload is what the next read sees.  After the
    continuation of [reload] has assigned the new value to the entry that
    answers to the key, a lookup of the key finds that entry with the new
    value, the new [loaded] time and the new size, and with the [last_read]
    it had: a reload does not count as a read. *)
Theorem reloaded_value_is_served_next
        (Key Tp : Type) (EqualPred : Key -> Key -> bool)
        (EntrySize : Tp -> Z) (new_val : Tp) (now : Z) :
  (forall (c : Anchored.loading_cache Key Tp) k e,
      Anchored.set_find EqualPred c k = Some e ->
      let c' := fst (Anchored.reload_cont EqualPred EntrySize c k
                       (loaded new_val) now) in
      Anchored.set_find EqualPred c' k
      = Some {| Anchored.key := Anchored.key e;
                Anchored.timestamped_value :=
                  {| Anchored._value := new_val;
                     Anchored._loaded := now;
                     Anchored._last_read :=
                       Anchored._last_read (Anchored.timestamped_value e);
                     Anchored._size := EntrySize new_val |} |}
      /\ forall ts_val now',
          snd (Anchored.get_cont EqualPred c' k ts_val now')
          = Anchored.ready_future new_val)
  /\ (forall (c : Indexed.loading_cache Key Tp) k v,
         Indexed.find EqualPred c k = Some v ->
         find (Indexed.refers_to (Indexed.addr v)) (Indexed._lru_list c)
         = Some v ->
         exists c',
           Indexed.reload_cont EntrySize c (snd (Indexed.reload v))
             (loaded new_val) now = Some (c', resolved)
           /\ Indexed.find EqualPred c' k
              = Some {| Indexed.addr := Indexed.addr v;
                        Indexed.key := Indexed.key v;
                        Indexed._value := new_val;
                        Indexed._loaded := now;
                        Indexed._last_read := Indexed._last_read v;
                        Indexed._size := EntrySize new_val |}).
Proof.
  split.
  - intros c k e Hfind c'. subst c'.
    unfold Anchored.reload_cont. rewrite Hfind. simpl.
    assert (Hnew : Anchored.set_find EqualPred
                     (Anchored.reassign EqualPred EntrySize c k e new_val now)
                     k
                   = Some (Anchored.on_value
                             (Anchored.assigned EntrySize new_val now) e)).
    { unfold Anchored.set_find, Anchored.reassign. simpl.
      apply find_after_update_first; [reflexivity|exact Hfind|exact Hfind]. }
    split; [exact Hnew|].
    intros ts_val now'. unfold Anchored.set_find in Hnew.
    destruct (find_extract _ _ _ Hnew) as (l1 & l2 & _ & E & _).
    unfold Anchored.get_cont. rewrite E. reflexivity.
  - intros c k v Hkey Haddr.
    unfold Indexed.reload_cont. simpl. rewrite Haddr.
    eexists. split; [reflexivity|].
    unfold Indexed.find, Indexed.set_find, Indexed._set, Indexed.reassign
      in *. simpl.
    apply (find_after_update_first _ _
             (Indexed.assigned EntrySize new_val now));
      [reflexivity|exact Haddr|exact Hkey].
Qed.

Lemma reloaded_value_is_served_next_witness :
  (Anchored.set_find Scenario.EqualPred
     (fst (Anchored.reload_cont Scenario.EqualPred Scenario.EntrySize
             Scenario.anchored_ba Scenario.a (loaded Scenario.abc) 600))
     Scenario.a
   = Some {| Anchored.key := Anchored.key Scenario.entry_a;
             Anchored.timestamped_value :=
               {| Anchored._value := Scenario.abc;
                  Anchored._loaded := 600;
                  Anchored._last_read :=
                    Anchored._last_read
                      (Anchored.timestamped_value Scenario.entry_a);
                  Anchored._size := Scenario.EntrySize Scenario.abc |} |}
   /\ forall ts_val now',
       snd (Anchored.get_cont Scenario.EqualPred
              (fst (Anchored.reload_cont Scenario.EqualPred
                      Scenario.EntrySize Scenario.anchored_ba Scenario.a
                      (loaded Scenario.abc) 600))
              Scenario.a ts_val now')
       = Anchored.ready_future Scenario.abc)
  /\ exists c',
      Indexed.reload_cont Scenario.EntrySize Scenario.indexed_ba
        (snd (Indexed.reload Scenario.node_a)) (loaded Scenario.abc) 600
      = Some (c', resolved)
      /\ Indexed.find Scenario.EqualPred c' Scenario.a
         = Some {| Indexed.addr := Indexed.addr Scenario.node_a;
                   Indexed.key := Indexed.key Scenario.node_a;
                   Indexed._value := Scenario.abc;
                   Indexed._loaded := 600;
                   Indexed._last_read := Indexed._last_read Scenario.node_a;
                   Indexed._size := Scenario.EntrySize Scenario.abc |}.
Proof.
  destruct (reloaded_value_is_served_next
              Scenario.Key Scenario.Tp Scenario.EqualPred Scenario.EntrySize
              Scenario.abc 600) as [HA HI].
  split.
  - apply (HA Scenario.anchored_ba Scenario.a Scenario.entry_a). reflexivity.
  - apply (HI Scenario.indexed_ba Scenario.a Scenario.node_a); reflexivity.
Defined.

(** ** Where the two revisions agree *)
Section MappedLists.
Context {A B : Type}.
Variables (sz : A -> Z) (sz' : B -> Z) (g : A -> B).
Hypothesis size_kept : forall x, sz' (g x) = sz x.

Lemma remove_and_dispose_if_map (pred : A -> bool) (pred' : B -> bool)
      (l : list A) (cs : Z) :
  (forall x, pred' (g x) = pred x) ->
  remove_and_dispose_if sz' pred' (map g l) cs
  = (map g (fst (remove_and_dispose_if sz pred l cs)),
     snd (remove_and_dispose_if sz pred l cs)).
Proof.
  intros Hp. revert cs. induction l as [|x l IH]; intros cs; simpl.
  - reflexivity.
  - rewrite Hp, size_kept. destruct (pred x).
    + apply IH.
    + rewrite IH. destruct (remove_and_dispose_if sz pred l cs). reflexivity.
Qed.

Lemma shrink_from_back_map (max : Z) (rl : list A) (cs : Z) :
  shrink_from_back sz' max (map g rl) cs
  = option_map (fun r => (map g (fst r), snd r))
      (shrink_from_back sz max rl cs).
Proof.
  revert cs. induction rl as [|x rl IH]; intros cs; simpl.
  - destruct (max <? cs); reflexivity.
  - destruct (max <? cs); [|reflexivity]. rewrite size_kept. apply IH.
Qed.

Lemma extract_map (p : A -> bool) (p' : B -> bool) (l : list A) :
  (forall x, p' (g x) = p x) ->
  extract p' (map g l)
  = option_map (fun r => (g (fst r), map g (snd r))) (extract p l).
Proof.
  intros Hp. induction l as [|x l IH]; simpl; [reflexivity|].
  rewrite Hp. destruct (p x); [reflexivity|].
  rewrite IH. destruct (extract p l) as [[y r]|]; reflexivity.
Qed.
End MappedLists.

(** A reloading cache of [part_001] and the cache of
    [src/utils/loading_cache.hh] with the same entries do the same on a
    timer tick: the same entries are swept and shrunk away, the same total
    is left, and both are undefined together. *)
Theorem revisions_agree_on_the_timer_tick
        (Key Tp : Type) (c : Indexed.loading_cache Key Tp)
        (now : Z) (examined_at : nat -> Z) :
  Indexed.ReloadEnabled c = true ->
  option_map fst (Anchored.on_timer (anchored_cache_of c) now examined_at)
  = option_map anchored_cache_of (Indexed.on_timer c now).
Proof.
  intros Hre.
  unfold Anchored.on_timer, Indexed.on_timer, Anchored.shrink,
    Indexed.shrink, Anchored.drop_expired, Indexed.drop_expired.
  simpl.
  rewrite (remove_and_dispose_if_map Indexed._size Anchored.entry_size
             anchored_entry_of (fun _ => eq_refl)
             (Indexed.expired c now)).
  - destruct (remove_and_dispose_if Indexed._size _ _ _) as [l cs]. simpl.
    rewrite <- map_rev.
    rewrite (shrink_from_back_map Indexed._size Anchored.entry_size
               anchored_entry_of (fun _ => eq_refl)).
    destruct (shrink_from_back Indexed._size _ _ _) as [[rl cs']|]; simpl;
      [|reflexivity].
    unfold anchored_cache_of. simpl. rewrite map_rev. reflexivity.
  - intros v. unfold Anchored.expired, Indexed.expired. simpl.
    rewrite Hre. reflexivity.
Qed.

Lemma revisions_agree_on_the_timer_tick_witness :
  option_map fst
    (Anchored.on_timer (anchored_cache_of Scenario.indexed_over) 1150
       (fun _ => 1150))
  = option_map anchored_cache_of (Indexed.on_timer Scenario.indexed_over 1150).
Proof.
  apply (revisions_agree_on_the_timer_tick Scenario.Key Scenario.Tp
           Scenario.indexed_over 1150 (fun _ => 1150)).
  reflexivity.
Defined.

(** The two revisions also agree on the continuation of a load whose value
    fits the cache (its size is at most [_max_size]) and on every
    continuation that finds the key resident: the same value is returned and
    the same entries and total are left.  They part only on a miss with an
    oversize value. *)
Theorem revisions_agree_on_loads_that_fit
        (Key Tp : Type) (EqualPred : Key -> Key -> bool)
        (EntrySize : Tp -> Z) (c : Indexed.loading_cache Key Tp)
        (k : Key) (val : Tp) (built now : Z) :
  Indexed.find EqualPred c k <> None
  \/ EntrySize val <= Indexed._max_size c ->
  let r := Indexed.get_ptr_cont EqualPred EntrySize c k val built now in
  Anchored.get_cont EqualPred (anchored_cache_of c) k
    (Anchored.timestamped_val_ctor EntrySize val built) now
  = (anchored_cache_of (fst r), Anchored.ready_future (snd r)).
Proof.
  intros H. simpl.
  unfold Anchored.get_cont, Indexed.get_ptr_cont. simpl.
  rewrite (extract_map anchored_entry_of (Indexed.key_eq EqualPred k));
    [|reflexivity].
  destruct (extract (Indexed.key_eq EqualPred k) (Indexed._lru_list c))
    as [[e rest]|] eqn:E; simpl.
  - reflexivity.
  - destruct H as [H|H].
    + exfalso. apply H. apply extract_none_find. exact E.
    + apply Z.ltb_ge in H. rewrite H. reflexivity.
Qed.

Lemma revisions_agree_on_loads_that_fit_witness :
  let r := Indexed.get_ptr_cont Scenario.EqualPred Scenario.EntrySize
             Scenario.indexed_ba Scenario.abc Scenario.abc 200 200 in
  Anchored.get_cont Scenario.EqualPred (anchored_cache_of Scenario.indexed_ba)
    Scenario.abc
    (Anchored.timestamped_val_ctor Scenario.EntrySize Scenario.abc 200) 200
  = (anchored_cache_of (fst r), Anchored.ready_future (snd r)).
Proof.
  apply (revisions_agree_on_loads_that_fit
           Scenario.Key Scenario.Tp Scenario.EqualPred Scenario.EntrySize
           Scenario.indexed_ba Scenario.abc Scenario.abc 200 200).
  right. discriminate.
Defined.

(** ** What a load never does, and what a second sweep does *)

(** The continuation of [get] or [get_ptr] evicts nothing, however big the
    total becomes: every entry that was resident is still resident when it
    returns, unchanged or, for the entry that was hit, with its [last_read]
    stamped.  Bringing the total back within [_max_size] is left to the
    timer tick. *)
Theorem load_continuation_never_evicts
        (Key Tp : Type) (EqualPred : Key -> Key -> bool)
        (EntrySize : Tp -> Z) (k : Key) (now : Z) :
  (forall (c : Anchored.loading_cache Key Tp) ts_val e,
      In e (Anchored._lru_list c) ->
      let c' := fst (Anchored.get_cont EqualPred c k ts_val now) in
      (In e (Anchored._lru_list c')
       \/ In (Anchored.on_value (Anchored.read_at now) e)
             (Anchored._lru_list c'))
      /\ (length (Anchored._lru_list c) <= length (Anchored._lru_list c'))%nat)
  /\ (forall (c : Indexed.loading_cache Key Tp) val built v,
         In v (Indexed._lru_list c) ->
         let c' := fst (Indexed.get_ptr_cont EqualPred EntrySize c k val built
                          now) in
         (In v (Indexed._lru_list c')
          \/ In (Indexed.read_at now v) (Indexed._lru_list c'))
         /\ Indexed.entries_count c <= Indexed.entries_count c').
Proof.
  split.
  - intros c ts_val e Hin. unfold Anchored.get_cont.
    destruct (extract _ _) as [[x rest]|] eqn:E.
    + destruct (extract_split _ _ _ _ E) as (l1 & l2 & Hl & -> & _).
      simpl. rewrite Hl in *. split.
      * apply in_app_or in Hin as [Hin|[<-|Hin]].
        -- left. right. apply in_or_app. left. exact Hin.
        -- right. left. reflexivity.
        -- left. right. apply in_or_app. right. exact Hin.
      * rewrite !length_app. simpl. lia.
    + destruct (_ <? _); simpl.
      * split; [left; exact Hin|lia].
      * split; [left; right; exact Hin|lia].
  - intros c val built v Hin. unfold Indexed.get_ptr_cont.
    unfold Indexed.entries_count, Indexed._set.
    destruct (extract _ _) as [[x rest]|] eqn:E.
    + destruct (extract_split _ _ _ _ E) as (l1 & l2 & Hl & -> & _).
      simpl. rewrite Hl in *. split.
      * apply in_app_or in Hin as [Hin|[<-|Hin]].
        -- left. right. apply in_or_app. left. exact Hin.
        -- right. left. reflexivity.
        -- left. right. apply in_or_app. right. exact Hin.
      * rewrite !length_app. simpl. lia.
    + simpl. split; [left; right; exact Hin|lia].
Qed.

Lemma load_continuation_never_evicts_witness :
  ((In Scenario.entry_a
       (Anchored._lru_list
          (fst (Anchored.get_cont Scenario.EqualPred Scenario.anchored_ba
                  Scenario.abc
                  (Anchored.timestamped_val_ctor Scenario.EntrySize
                     Scenario.abc 200) 200)))
    \/ In (Anchored.on_value (Anchored.read_at 200) Scenario.entry_a)
          (Anchored._lru_list
             (fst (Anchored.get_cont Scenario.EqualPred Scenario.anchored_ba
                     Scenario.abc
                     (Anchored.timestamped_val_ctor Scenario.EntrySize
                        Scenario.abc 200) 200))))
   /\ (length (Anchored._lru_list Scenario.anchored_ba)
       <= length
            (Anchored._lru_list
               (fst (Anchored.get_cont Scenario.EqualPred
                       Scenario.anchored_ba Scenario.abc
                       (Anchored.timestamped_val_ctor Scenario.EntrySize
                          Scenario.abc 200) 200))))%nat)
  /\ (In Scenario.node_a
         (Indexed._lru_list
            (fst (Indexed.get_ptr_cont Scenario.EqualPred Scenario.EntrySize
                    Scenario.indexed_ba Scenario.hello Scenario.hello 200
                    200)))
      \/ In (Indexed.read_at 200 Scenario.node_a)
            (Indexed._lru_list
               (fst (Indexed.get_ptr_cont Scenario.EqualPred
                       Scenario.EntrySize Scenario.indexed_ba Scenario.hello
                       Scenario.hello 200 200))))
     /\ Indexed.entries_count Scenario.indexed_ba
        <= Indexed.entries_count
             (fst (Indexed.get_ptr_cont Scenario.EqualPred Scenario.EntrySize
                     Scenario.indexed_ba Scenario.hello Scenario.hello 200
                     200)).
Proof.
  destruct (load_continuation_never_evicts
              Scenario.Key Scenario.Tp Scenario.EqualPred Scenario.EntrySize
              Scenario.abc 200) as [HA _].
  destruct (load_continuation_never_evicts
              Scenario.Key Scenario.Tp Scenario.EqualPred Scenario.EntrySize
              Scenario.hello 200) as [_ HI].
  split.
  - apply (HA Scenario.anchored_ba). right. left. reflexivity.
  - apply (HI Scenario.indexed_ba). right. left. reflexivity.
Defined.

(** The expiry sweep keeps the surviving entries in their LRU order and as
    they were, and sweeping again at the same clock reading changes
    nothing: neither the list nor the total. *)
Theorem second_sweep_changes_nothing (Key Tp : Type) :
  (forall (c : Anchored.loading_cache Key Tp) now,
      Anchored._lru_list (Anchored.drop_expired c now)
      = filter (fun e => negb (Anchored.expired c now e))
          (Anchored._lru_list c)
      /\ Anchored.drop_expired (Anchored.drop_expired c now) now
         = Anchored.drop_expired c now)
  /\ (forall (c : Indexed.loading_cache Key Tp) now,
         Indexed._lru_list (Indexed.drop_expired c now)
         = filter (fun v => negb (Indexed.expired c now v))
             (Indexed._lru_list c)
         /\ Indexed.drop_expired (Indexed.drop_expired c now) now
            = Indexed.drop_expired c now).
Proof.
  split.
  - intros c now. split; [apply anchored_drop_expired_kept|].
    pose proof (anchored_drop_expired_kept c now) as Hk.
    assert (Hex : forall e, Anchored.expired (Anchored.drop_expired c now) now e
                            = Anchored.expired c now e).
    { intros e. unfold Anchored.expired, Anchored.drop_expired.
      destruct (remove_and_dispose_if _ _ _ _). reflexivity. }
    unfold Anchored.drop_expired at 1.
    rewrite (remove_and_dispose_if_no_match Anchored.entry_size).
    + apply anchored_with_entries_same.
    + intros e Hin. rewrite Hex. rewrite Hk in Hin.
      apply filter_In in Hin as [_ Hin]. apply negb_true_iff. exact Hin.
  - intros c now. split; [apply indexed_drop_expired_kept|].
    pose proof (indexed_drop_expired_kept c now) as Hk.
    assert (Hex : forall v, Indexed.expired (Indexed.drop_expired c now) now v
                            = Indexed.expired c now v).
    { intros v. unfold Indexed.expired, Indexed.drop_expired.
      destruct (remove_and_dispose_if _ _ _ _). reflexivity. }
    unfold Indexed.drop_expired at 1.
    rewrite (remove_and_dispose_if_no_match Indexed._size).
    + apply indexed_with_entries_same.
    + intros v Hin. rewrite Hex. rewrite Hk in Hin.
      apply filter_In in Hin as [_ Hin]. apply negb_true_iff. exact Hin.
Qed.
